(** * Things service: ownership, connectivity and the in-memory channel store

    A shallow embedding of the things service ([thingsService]) and of the
    in-memory channel repository ([channelRepositoryMock]) of mainflux,
    with the properties of ownership scoping, pagination and connectivity
    stated over it. *)

From Stdlib Require Import ZArith Lia Ascii String.
From stdpp Require Import base strings list gmap fin_maps sorting.

Local Open Scope string_scope.
Local Open Scope list_scope.
Local Open Scope Z_scope.

(** ** Strings: the parts of Go's [strings] and [fmt] packages the store uses *)

Module GoString.

(** [strings.HasPrefix s prefix]:
    [len(s) >= len(prefix) && s[:len(prefix)] == prefix]. *)
Definition HasPrefix (s pre : string) : bool :=
  (String.length pre <=? String.length s)%nat
  && String.eqb (substring 0 (String.length pre) s) pre.

(** [strings.HasSuffix s suffix]:
    [len(s) >= len(suffix) && s[len(s)-len(suffix):] == suffix]. *)
Definition HasSuffix (s suf : string) : bool :=
  (String.length suf <=? String.length s)%nat
  && String.eqb
       (substring (String.length s - String.length suf) (String.length suf) s)
       suf.

(** Go's [<] on strings is the bytewise lexicographic order. *)
Definition lt (s1 s2 : string) : bool := String.ltb s1 s2.
Definition ge (s1 s2 : string) : bool := negb (String.ltb s1 s2).

(** The separator of the composed store keys. *)
Definition sep : ascii := "-"%char.

(** [no_sep s]: the byte ["-"] does not occur in [s]. *)
Fixpoint no_sep (s : string) : bool :=
  match s with
  | EmptyString => true
  | String a s' => negb (Ascii.eqb a sep) && no_sep s'
  end.

(** *** Decimal rendering: [%d] and [%012d] on a 64-bit [int] *)

Definition digit (d : Z) : ascii :=
  ascii_of_nat (48 + Z.to_nat d).

(** The decimal digits of [n >= 0], most significant first, in front of
    [acc]; 20 rounds are enough for a 64-bit magnitude. *)
Fixpoint itoa_go (fuel : nat) (n : Z) (acc : string) : string :=
  match fuel with
  | O => acc
  | S fuel' =>
      let acc' := String (digit (n mod 10)) acc in
      if n / 10 =? 0 then acc' else itoa_go fuel' (n / 10) acc'
  end.

Definition itoa (n : Z) : string := itoa_go 20 n EmptyString.

Fixpoint zeros (k : nat) : string :=
  match k with
  | O => EmptyString
  | S k' => String "0"%char (zeros k')
  end.

(** Left padding with ["0"] up to width [w]; a longer string is kept. *)
Definition zero_pad (w : nat) (s : string) : string :=
  zeros (w - String.length s) +:+ s.

(** [fmt.Sprintf("%012d", n)]: zero padding to width 12, the sign counted
    in the width and written before the zeros. *)
Definition Sprintf_012d (n : Z) : string :=
  if n <? 0 then String "-"%char (zero_pad 11 (itoa (- n)))
  else zero_pad 12 (itoa n).

(** Go's [int] is 64 bits wide; [+] wraps around in two's complement. *)
Definition wrap (x : Z) : Z := (x + 2 ^ 63) mod 2 ^ 64 - 2 ^ 63.
Definition int_add (a b : Z) : Z := wrap (a + b).
Definition is_int (x : Z) : Prop := - 2 ^ 63 <= x < 2 ^ 63.

(** The [w] low decimal digits of [n], most significant first. *)
Fixpoint fixed_go (w : nat) (n : Z) (acc : string) : string :=
  match w with
  | O => acc
  | S w' => fixed_go w' (n / 10) (String (digit (n mod 10)) acc)
  end.

Definition fixed (w : nat) (n : Z) : string := fixed_go w n EmptyString.

End GoString.

Import GoString.

(** ** Data model *)

(** The errors of package [things]. *)
Inductive error : Set :=
| ErrConflict
| ErrMalformedEntity
| ErrUnauthorizedAccess
| ErrNotFound.

(** A Go result [(A, error)]: the value when the error is [nil], the error
    otherwise (the zero value returned next to it is dropped). A result of
    type [error] alone is an [option error], [None] standing for [nil]. *)
Inductive result (A : Type) : Type :=
| Ok (a : A)
| Err (e : error).
Arguments Ok {A} a.
Arguments Err {A} e.

#[global] Instance error_eq_dec : EqDecision error.
Proof. solve_decision. Defined.

(** Modelled from the spec: the declaration of [things.Thing] is not among
    the sources; the fields are those of the data model (identifier, owner,
    device key, display name, free-form metadata), of which the code reads
    [ID], [Owner] and [Key]. *)
Module Thing.
Record t : Set := mk {
  ID : string;
  Owner : string;
  Key : string;
  Name : string;
  Metadata : list (string * string)
}.

(** The zero value [things.Thing{}]. *)
Definition zero : t := mk EmptyString EmptyString EmptyString EmptyString [].

Definition with_stamp (thing : t) (id owner k : string) : t :=
  mk id owner k (Name thing) (Metadata thing).

Definition with_Owner (thing : t) (owner : string) : t :=
  mk (ID thing) owner (Key thing) (Name thing) (Metadata thing).
End Thing.

(** Modelled from the spec: the declaration of [things.Channel] is not
    among the sources; the fields are those of the data model (identifier,
    owner, display name, free-form metadata, connected things), of which
    the code reads [ID], [Owner] and [Things]. *)
Module Channel.
Record t : Set := mk {
  ID : string;
  Owner : string;
  Name : string;
  Metadata : list (string * string);
  Things : list Thing.t
}.

Definition with_stamp (channel : t) (id owner : string) : t :=
  mk id owner (Name channel) (Metadata channel) (Things channel).

Definition with_Owner (channel : t) (owner : string) : t :=
  mk (ID channel) owner (Name channel) (Metadata channel) (Things channel).

Definition with_Things (channel : t) (ts : list Thing.t) : t :=
  mk (ID channel) (Owner channel) (Name channel) (Metadata channel) ts.
End Channel.

#[global] Instance Thing_eq_dec : EqDecision Thing.t.
Proof. solve_decision. Defined.
#[global] Instance Channel_eq_dec : EqDecision Channel.t.
Proof. solve_decision. Defined.

(** The interface [things.ThingRepository], as the service and the channel
    store call it; [TR] is the state of an implementation. *)
Class ThingRepository (TR : Type) : Type := {
  thing_Save : TR -> Thing.t -> result string * TR;
  thing_Update : TR -> Thing.t -> option error * TR;
  thing_One : TR -> string -> string -> result Thing.t;
  thing_All : TR -> string -> Z -> Z -> list Thing.t;
  thing_Remove : TR -> string -> string -> option error * TR
}.

(** The interface [things.IdentityProvider]: [ID()] yields an identifier
    and advances the generator. *)
Class IdentityProvider (I : Type) : Type := {
  idp_ID : I -> string * I
}.

(** ** The in-memory channel repository (package [mocks]) *)

(** [sort.SliceStable]: stable insertion by [less]. *)
Section SliceStable.
Context {A : Type} (less : A -> A -> bool).

Fixpoint insert_stable (x : A) (l : list A) : list A :=
  match l with
  | [] => [x]
  | y :: l' => if less y x then y :: insert_stable x l' else x :: y :: l'
  end.

Definition SliceStable (l : list A) : list A :=
  foldr insert_stable [] l.
End SliceStable.

(** Modelled from the spec: [key] lives in mocks/commons.go, which is not
    among the sources; a key is composed as owner + separator + id, and the
    store looks keys up by the prefix [owner-] and the suffix [-id]. *)
Definition key (owner id : string) : string :=
  owner +:+ String sep id.

Module mocks.

Record channelRepositoryMock : Type := {
counter : Z;
channels : gmap string Channel.t
}.

Definition set_channels (crm : channelRepositoryMock)
  (m : gmap string Channel.t) : channelRepositoryMock :=
{| counter := counter crm; channels := m |}.

(** [NewChannelRepository]: an empty map. *)
Definition NewChannelRepository : channelRepositoryMock :=
{| counter := 0; channels := ∅ |}.

(** Go leaves the order in which [range] visits a map unspecified: [visit]
  is a sequence a [range] over [m] may produce, each entry once. *)
Definition ranges (m : gmap string Channel.t)
  (visit : list (string * Channel.t)) : Prop :=
visit ≡ₚ map_to_list m.

Section ChannelRepository.
Context {TR : Type} `{ThingRepository TR}.

(** The constant [startID] of mocks/commons.go, the text in front of the
    twelve digits of an identifier, is not among the sources: the store is
    read for any value of it. *)
Variable startID : string.

Definition Save (crm : channelRepositoryMock) (channel : Channel.t)
    : result string * channelRepositoryMock :=
  (Ok (Channel.ID channel),
   set_channels crm
     (<[key (Channel.Owner channel) (Channel.ID channel) := channel]>
        (channels crm))).

Definition Update (crm : channelRepositoryMock) (channel : Channel.t)
    : option error * channelRepositoryMock :=
  let dbKey := key (Channel.Owner channel) (Channel.ID channel) in
  match channels crm !! dbKey with
  | None => (Some ErrNotFound, crm)
  | Some _ => (None, set_channels crm (<[dbKey := channel]> (channels crm)))
  end.

Definition One (crm : channelRepositoryMock) (owner id : string)
    : result Channel.t :=
  match channels crm !! key owner id with
  | Some c => Ok c
  | None => Err ErrNotFound
  end.

(** The loop of [All] over the visited entries: the values whose key
    starts with [prefix] and whose ID lies in [[first, last)], in the
    order of the visit. *)
Fixpoint All_collect (visit : list (string * Channel.t))
    (pre first last : string) : list Channel.t :=
  match visit with
  | [] => []
  | (k, v) :: rest =>
      if HasPrefix k pre
         && GoString.ge (Channel.ID v) first
         && GoString.lt (Channel.ID v) last
      then v :: All_collect rest pre first last
      else All_collect rest pre first last
  end.

Definition All (visit : list (string * Channel.t)) (owner : string)
    (offset limit : Z) : list Channel.t :=
  let pre := owner +:+ String sep EmptyString in
  if (offset <? 0) || (limit <=? 0) then []
  else
    let first := startID +:+ Sprintf_012d (int_add offset 1) in
    let last := startID +:+ Sprintf_012d (int_add (int_add offset limit) 1) in
    SliceStable (fun a b => GoString.lt (Channel.ID a) (Channel.ID b))
      (All_collect visit pre first last).

Definition Remove (crm : channelRepositoryMock) (owner id : string)
    : option error * channelRepositoryMock :=
  (None, set_channels crm (delete (key owner id) (channels crm))).

(** [crm.things] is the thing repository the service holds as well; its
    state [tr] is passed in, and [Connect] only reads it. The slice
    [channel.Things] is a value here: [append] yields the list with the
    thing at its end, which is what the call leaves in the map for this
    channel whether or not Go reuses the array behind the slice. *)
Definition Connect (tr : TR) (crm : channelRepositoryMock)
    (owner chanID thingID : string)
    : option error * channelRepositoryMock :=
  match One crm owner chanID with
  | Err e => (Some e, crm)
  | Ok channel =>
      match thing_One tr owner thingID with
      | Err e => (Some e, crm)
      | Ok thing =>
          Update crm
            (Channel.with_Things channel (Channel.Things channel ++ [thing]))
      end
  end.

(** The inner loop of [Disconnect]: [connected] starts as
    [make([]things.Thing, len(channel.Things)-1)], a slice of that many
    zero values, and every thing with another ID is appended to it. *)
Definition Disconnect_connected (ts : list Thing.t) (thingID : string)
    : list Thing.t :=
  fold_left
    (fun connected thing =>
       if negb (String.eqb (Thing.ID thing) thingID)
       then connected ++ [thing] else connected)
    ts
    (replicate (length ts - 1) Thing.zero).

(** The outer loop of [Disconnect]: at the first thing with the ID the
    channel is rewritten and the call returns. *)
Fixpoint Disconnect_loop (crm : channelRepositoryMock) (channel : Channel.t)
    (ts : list Thing.t) (thingID : string)
    : option error * channelRepositoryMock :=
  match ts with
  | [] => (Some ErrNotFound, crm)
  | t :: ts' =>
      if String.eqb (Thing.ID t) thingID then
        Update crm
          (Channel.with_Things channel
             (Disconnect_connected (Channel.Things channel) thingID))
      else Disconnect_loop crm channel ts' thingID
  end.

Definition Disconnect (crm : channelRepositoryMock)
    (owner chanID thingID : string)
    : option error * channelRepositoryMock :=
  match One crm owner chanID with
  | Err e => (Some e, crm)
  | Ok channel => Disconnect_loop crm channel (Channel.Things channel) thingID
  end.

(** The inner loop of [HasThing]: the ID of the first thing with the key. *)
Fixpoint HasThing_scan (ts : list Thing.t) (k : string) : result string :=
  match ts with
  | [] => Err ErrNotFound
  | t :: ts' =>
      if String.eqb (Thing.Key t) k then Ok (Thing.ID t)
      else HasThing_scan ts' k
  end.

(** The outer loop of [HasThing]: the first visited key with the suffix
    decides ([break]). *)
Fixpoint HasThing_loop (visit : list (string * Channel.t))
    (suffix k : string) : result string :=
  match visit with
  | [] => Err ErrNotFound
  | (dbKey, v) :: rest =>
      if HasSuffix dbKey suffix then HasThing_scan (Channel.Things v) k
      else HasThing_loop rest suffix k
  end.

Definition HasThing (visit : list (string * Channel.t))
    (chanID k : string) : result string :=
  HasThing_loop visit (String sep chanID) k.

End ChannelRepository.

End mocks.

(** ** The service (package [things]) *)

(** [thingsService]: [users] is the identity oracle, which maps a token to
    the owner it identifies, or fails ([None]: an error of the call or its
    timeout); [channels] is the in-memory channel repository. *)
Record thingsService (TR I : Type) : Type := {
  users : string -> option string;
  things : TR;
  channels : mocks.channelRepositoryMock;
  idp : I
}.
Arguments users {TR I} _.
Arguments things {TR I} _.
Arguments channels {TR I} _.
Arguments idp {TR I} _.

Section Service.
Context {TR I : Type} `{ThingRepository TR} `{IdentityProvider I}.
Variable startID : string.

Local Abbreviation service := (thingsService TR I).

(** [New]. *)
Definition New (u : string -> option string) (tr : TR)
    (crm : mocks.channelRepositoryMock) (i : I) : service :=
  {| users := u; things := tr; channels := crm; idp := i |}.

Definition set_things (ts : service) (tr : TR) : service :=
  {| users := users ts; things := tr; channels := channels ts; idp := idp ts |}.
Definition set_chans (ts : service) (crm : mocks.channelRepositoryMock)
    : service :=
  {| users := users ts; things := things ts; channels := crm; idp := idp ts |}.
Definition set_idp (ts : service) (i : I) : service :=
  {| users := users ts; things := things ts; channels := channels ts; idp := i |}.

Definition AddThing (ts : service) (k : string) (thing : Thing.t)
    : result Thing.t * service :=
  match users ts k with
  | None => (Err ErrUnauthorizedAccess, ts)
  | Some owner =>
      let (id, i1) := idp_ID (idp ts) in
      let (devkey, i2) := idp_ID i1 in
      let thing := Thing.with_stamp thing id owner devkey in
      let (saved, tr) := thing_Save (things ts) thing in
      let ts := set_idp (set_things ts tr) i2 in
      match saved with
      | Err e => (Err e, ts)
      | Ok _ => (Ok thing, ts)
      end
  end.

Definition UpdateThing (ts : service) (k : string) (thing : Thing.t)
    : option error * service :=
  match users ts k with
  | None => (Some ErrUnauthorizedAccess, ts)
  | Some owner =>
      let (e, tr) := thing_Update (things ts) (Thing.with_Owner thing owner) in
      (e, set_things ts tr)
  end.

Definition ViewThing (ts : service) (k id : string) : result Thing.t :=
  match users ts k with
  | None => Err ErrUnauthorizedAccess
  | Some owner => thing_One (things ts) owner id
  end.

Definition ListThings (ts : service) (k : string) (offset limit : Z)
    : result (list Thing.t) :=
  match users ts k with
  | None => Err ErrUnauthorizedAccess
  | Some owner => Ok (thing_All (things ts) owner offset limit)
  end.

Definition RemoveThing (ts : service) (k id : string)
    : option error * service :=
  match users ts k with
  | None => (Some ErrUnauthorizedAccess, ts)
  | Some owner =>
      let (e, tr) := thing_Remove (things ts) owner id in
      (e, set_things ts tr)
  end.

Definition CreateChannel (ts : service) (k : string) (channel : Channel.t)
    : result Channel.t * service :=
  match users ts k with
  | None => (Err ErrUnauthorizedAccess, ts)
  | Some owner =>
      let (id, i1) := idp_ID (idp ts) in
      let channel := Channel.with_stamp channel id owner in
      let (saved, crm) := mocks.Save (channels ts) channel in
      let ts := set_idp (set_chans ts crm) i1 in
      match saved with
      | Err e => (Err e, ts)
      | Ok _ => (Ok channel, ts)
      end
  end.

Definition UpdateChannel (ts : service) (k : string) (channel : Channel.t)
    : option error * service :=
  match users ts k with
  | None => (Some ErrUnauthorizedAccess, ts)
  | Some owner =>
      let (e, crm) :=
        mocks.Update (channels ts) (Channel.with_Owner channel owner) in
      (e, set_chans ts crm)
  end.

Definition ViewChannel (ts : service) (k id : string) : result Channel.t :=
  match users ts k with
  | None => Err ErrUnauthorizedAccess
  | Some owner => mocks.One (channels ts) owner id
  end.

(** [visit] is the order in which the store's [range] visits its map
    during this call. *)
Definition ListChannels (ts : service) (visit : list (string * Channel.t))
    (k : string) (offset limit : Z) : result (list Channel.t) :=
  match users ts k with
  | None => Err ErrUnauthorizedAccess
  | Some owner => Ok (mocks.All startID visit owner offset limit)
  end.

Definition RemoveChannel (ts : service) (k id : string)
    : option error * service :=
  match users ts k with
  | None => (Some ErrUnauthorizedAccess, ts)
  | Some owner =>
      let (e, crm) := mocks.Remove (channels ts) owner id in
      (e, set_chans ts crm)
  end.

Definition Connect (ts : service) (k chanID thingID : string)
    : option error * service :=
  match users ts k with
  | None => (Some ErrUnauthorizedAccess, ts)
  | Some owner =>
      let (e, crm) :=
        mocks.Connect (things ts) (channels ts) owner chanID thingID in
      (e, set_chans ts crm)
  end.

Definition Disconnect (ts : service) (k chanID thingID : string)
    : option error * service :=
  match users ts k with
  | None => (Some ErrUnauthorizedAccess, ts)
  | Some owner =>
      let (e, crm) := mocks.Disconnect (channels ts) owner chanID thingID in
      (e, set_chans ts crm)
  end.

(** [CanAccess(key, channel)]: the device key comes first, the channel
    second; no call of the identity oracle. *)
Definition CanAccess (ts : service) (visit : list (string * Channel.t))
    (k channel : string) : result string :=
  match mocks.HasThing visit channel k with
  | Err _ => Err ErrUnauthorizedAccess
  | Ok thingID => Ok thingID
  end.

(** The calls of the management plane that change the state. *)
Inductive call : Type :=
| CallAddThing (k : string) (thing : Thing.t)
| CallUpdateThing (k : string) (thing : Thing.t)
| CallRemoveThing (k id : string)
| CallCreateChannel (k : string) (channel : Channel.t)
| CallUpdateChannel (k : string) (channel : Channel.t)
| CallRemoveChannel (k id : string)
| CallConnect (k chanID thingID : string)
| CallDisconnect (k chanID thingID : string).

Definition exec (ts : service) (c : call) : service :=
  match c with
  | CallAddThing k thing => snd (AddThing ts k thing)
  | CallUpdateThing k thing => snd (UpdateThing ts k thing)
  | CallRemoveThing k id => snd (RemoveThing ts k id)
  | CallCreateChannel k channel => snd (CreateChannel ts k channel)
  | CallUpdateChannel k channel => snd (UpdateChannel ts k channel)
  | CallRemoveChannel k id => snd (RemoveChannel ts k id)
  | CallConnect k chanID thingID => snd (Connect ts k chanID thingID)
  | CallDisconnect k chanID thingID => snd (Disconnect ts k chanID thingID)
  end.

(** The states a service reaches from [New] over an empty channel
    repository. *)
Inductive reachable (u : string -> option string) (tr0 : TR) (i0 : I)
    : service -> Prop :=
| reachable_New : reachable u tr0 i0 (New u tr0 mocks.NewChannelRepository i0)
| reachable_exec ts c :
    reachable u tr0 i0 ts -> reachable u tr0 i0 (exec ts c).

End Service.

(** ** Collaborators for examples *)

Module fixtures.

(** The text in front of the digits of an identifier: a UUID-shaped one. *)
Definition startID : string := "123e4567-e89b-12d3-a456-".

(** Modelled from the spec: the identity provider of the in-memory setup
    is not among the sources; identifiers are fixed-width, zero-padded,
    increasing decimal strings in creation order, the first one 1. *)
Definition identityProviderMock : Type := Z.

#[global] Instance idp_mock : IdentityProvider identityProviderMock := {
  idp_ID c := let c' := int_add c 1 in (startID +:+ Sprintf_012d c', c')
}.

(** Modelled from the spec: the in-memory thing repository
    (things/mocks/things.go) is not among the sources; a store with the
    contract of the thing store, keyed by owner and id as the channel
    store is, listing in the order of the ids. *)
Definition thingRepositoryMock : Type := gmap string Thing.t.

Definition thing_in_page (owner : string) (offset limit : Z)
    (kv : string * Thing.t) : bool :=
  HasPrefix kv.1 (owner +:+ String sep EmptyString)
  && GoString.ge (Thing.ID kv.2)
       (startID +:+ Sprintf_012d (int_add offset 1))
  && GoString.lt (Thing.ID kv.2)
       (startID +:+ Sprintf_012d (int_add (int_add offset limit) 1)).

#[global] Instance things_mock : ThingRepository thingRepositoryMock := {
  thing_Save tr thing :=
    (Ok (Thing.ID thing),
     <[key (Thing.Owner thing) (Thing.ID thing) := thing]> tr);
  thing_Update tr thing :=
    match tr !! key (Thing.Owner thing) (Thing.ID thing) with
    | None => (Some ErrNotFound, tr)
    | Some _ =>
        (None, <[key (Thing.Owner thing) (Thing.ID thing) := thing]> tr)
    end;
  thing_One tr owner id :=
    match tr !! key owner id with
    | Some t => Ok t
    | None => Err ErrNotFound
    end;
  thing_All tr owner offset limit :=
    if (offset <? 0) || (limit <=? 0) then []
    else
      SliceStable
        (fun a b => GoString.lt (Thing.ID a) (Thing.ID b))
        (map snd (filter (fun kv => thing_in_page owner offset limit kv = true)
                    (map_to_list tr)));
  thing_Remove tr owner id := (None, delete (key owner id) tr)
}.

Abbreviation service := (thingsService thingRepositoryMock identityProviderMock).

(** The oracle of the examples: the token [tok-x] identifies owner [x]. *)
Definition users (token : string) : option string :=
  if HasPrefix token "tok-" then
    Some (substring 4 (String.length token - 4) token)
  else None.

(** A service over empty stores and a generator at its start. *)
Definition fresh : service :=
  New users (∅ : thingRepositoryMock) mocks.NewChannelRepository (0 : identityProviderMock).

End fixtures.

(** ** Vocabulary of the statements *)

(** [not_after less a b]: [less] does not put [b] before [a]. *)
Definition not_after {A : Type} (less : A -> A -> bool) (a b : A) : Prop :=
  less b a = false.

(** Ascending order of the identifiers: no channel is followed by one with
    a smaller ID. *)
Definition ascending (l : list Channel.t) : Prop :=
  Sorted
    (not_after (fun a b => GoString.lt (Channel.ID a) (Channel.ID b))) l.

(** Every entry of the map sits under the key composed of its own owner
    and ID. *)
Definition well_keyed (m : gmap string Channel.t) : Prop :=
  map_Forall (fun k c => k = key (Channel.Owner c) (Channel.ID c)) m.

(** No owner of a stored channel contains the separator. *)
Definition owners_plain (m : gmap string Channel.t) : Prop :=
  map_Forall (fun _ c => no_sep (Channel.Owner c) = true) m.

(** Every stored ID is [startID] followed by a number of at most twelve
    digits, zero-padded to twelve. *)
Definition ids_ranked (startID : string) (m : gmap string Channel.t) : Prop :=
  map_Forall
    (fun _ c => exists n, 0 <= n < 10 ^ 12 /\
                  Channel.ID c = startID +:+ Sprintf_012d n) m.

(** The creation rank of a channel, as the store reads it from the ID:
    ranks count from 0, the numbers in the IDs from 1. *)
Definition has_rank (startID : string) (c : Channel.t) (r : Z) : Prop :=
  Channel.ID c = startID +:+ Sprintf_012d (r + 1).

(** [stored m c]: the channel [c] is a value of the map. *)
Definition stored (m : gmap string Channel.t) (c : Channel.t) : Prop :=
  exists k, m !! k = Some c.

(** The connected set of the channel stored under [(owner, chanID)];
    empty where there is no such channel. *)
Definition connected (crm : mocks.channelRepositoryMock)
    (owner chanID : string) : list Thing.t :=
  match mocks.channels crm !! key owner chanID with
  | Some c => Channel.Things c
  | None => []
  end.

(** ** A scenario: one owner, two things, one channel *)

Module scenario.
Import fixtures.

Definition t1_id : string := "123e4567-e89b-12d3-a456-000000000001".
Definition t1_key : string := "123e4567-e89b-12d3-a456-000000000002".
Definition c1_id : string := "123e4567-e89b-12d3-a456-000000000003".
Definition t2_id : string := "123e4567-e89b-12d3-a456-000000000004".
Definition t2_key : string := "123e4567-e89b-12d3-a456-000000000005".

Definition t1 : Thing.t := Thing.mk t1_id "u" t1_key "meter" [].
Definition t2 : Thing.t := Thing.mk t2_id "u" t2_key "lamp" [].

(** What the caller sends: the id, owner and key fields are not the
    ones the service will assign. *)
Definition t1_request : Thing.t := Thing.mk "mine" "root" "secret" "meter" [].
Definition t2_request : Thing.t := Thing.mk EmptyString EmptyString EmptyString "lamp" [].
Definition c1_request : Channel.t := Channel.mk "mine" "root" "room" [] [].

(** Owner [u] adds a thing, creates a channel, adds a second thing. *)
Definition created : service :=
  let s := snd (AddThing fresh "tok-u" t1_request) in
  let s := snd (CreateChannel s "tok-u" c1_request) in
  snd (AddThing s "tok-u" t2_request).

(** ... connects the first thing to the channel, *)
Definition connected1 : service :=
  snd (Connect created "tok-u" c1_id t1_id).

(** ... connects it a second time, *)
Definition connected11 : service :=
  snd (Connect connected1 "tok-u" c1_id t1_id).

(** ... or connects the second thing after the first, *)
Definition connected12 : service :=
  snd (Connect connected1 "tok-u" c1_id t2_id).

(** ... and disconnects the first thing again. *)
Definition disconnected1 : service :=
  snd (Disconnect connected1 "tok-u" c1_id t1_id).
Definition disconnected12 : service :=
  snd (Disconnect connected12 "tok-u" c1_id t1_id).

(** A request for a channel that lists, as connected, a thing of another
    id with the device key the first thing has received. *)
Definition seeded_request : Channel.t :=
  Channel.mk EmptyString EmptyString "room" []
    [Thing.mk "other" "u" t1_key "probe" []].

(** Owner [u] adds the first thing, creates that channel and connects the
    thing to it. *)
Definition seeded : service :=
  let s := snd (AddThing fresh "tok-u" t1_request) in
  snd (CreateChannel s "tok-u" seeded_request).
Definition seeded_connected : service :=
  snd (Connect seeded "tok-u" c1_id t1_id).

(** The order in which the examples visit the channel map. *)
Definition visit (s : service) : list (string * Channel.t) :=
  map_to_list (mocks.channels (channels s)).

End scenario.

(** [sole_suffix m owner chanID]: among the keys of the map only the key of
    [(owner, chanID)] ends with the separator and [chanID]. *)
Definition sole_suffix (m : gmap string Channel.t) (owner chanID : string) : Prop :=
  forall dbKey c, m !! dbKey = Some c ->
    HasSuffix dbKey (String sep chanID) = true -> dbKey = key owner chanID.

(** ** A second scenario: an oracle for plain owner names, two owners *)

Module scenario2.
Import fixtures.

(** The token [tok-x] identifies owner [x] when [x] is free of the
    separator, and nobody otherwise. *)
Definition users_plain (token : string) : option string :=
  match users token with
  | Some owner => if no_sep owner then Some owner else None
  | None => None
  end.

Definition fresh : service :=
  New users_plain (∅ : thingRepositoryMock) mocks.NewChannelRepository
    (0 : identityProviderMock).

Definition cu_id : string := "123e4567-e89b-12d3-a456-000000000001".
Definition cw_id : string := "123e4567-e89b-12d3-a456-000000000002".
Definition cu : Channel.t := Channel.mk cu_id "u" "room" [] [].
Definition cw : Channel.t := Channel.mk cw_id "w" "hall" [] [].

(** Owner [u] creates a channel, then owner [w] creates one. *)
Definition created : service :=
  let s := snd (CreateChannel fresh "tok-u" (Channel.mk EmptyString EmptyString "room" [] [])) in
  snd (CreateChannel s "tok-w" (Channel.mk EmptyString EmptyString "hall" [] [])).

Definition visit (s : service) : list (string * Channel.t) :=
  map_to_list (mocks.channels (channels s)).

End scenario2.

(** ** Decimal text of integers (package [strconv]) *)

Module strconv.

(** The value of a decimal digit byte, if it is one ([ch -= '0'; ch > 9]
    fails). *)
Definition digit_value (c : ascii) : option Z :=
  let n := Z.of_nat (nat_of_ascii c) in
  if (48 <=? n) && (n <=? 57) then Some (n - 48) else None.

(** The digits of [s] read from the left onto [acc]: [n = n*10 + ch]. *)
Fixpoint parse_digits (s : string) (acc : Z) : option Z :=
  match s with
  | EmptyString => Some acc
  | String c s' =>
      match digit_value c with
      | Some d => parse_digits s' (acc * 10 + d)
      | None => None
      end
  end.

(** [strconv.Atoi] on a 64-bit [int]: an optional sign, at least one
    digit, nothing else, and a value an [int] holds; [None] is the error
    (syntax or range). *)
Definition Atoi (s : string) : option Z :=
  let '(negative, digits) :=
    match s with
    | String "-"%char rest => (true, rest)
    | String "+"%char rest => (false, rest)
    | _ => (false, s)
    end in
  match digits with
  | EmptyString => None
  | _ =>
      match parse_digits digits 0 with
      | None => None
      | Some v =>
          let n := if negative then - v else v in
          if (- 2 ^ 63 <=? n) && (n <? 2 ^ 63) then Some n else None
      end
  end.

(** [strconv.Itoa]: the decimal text of an [int], a sign in front of a
    negative one. *)
Definition Itoa (n : Z) : string :=
  if n <? 0 then String "-"%char (itoa (- n)) else itoa n.

End strconv.

(** ** The HTTP transport (package [http]) *)

Module transport.

(** The error values the transport tells apart: the errors of package
    [things], its own two, the two of package [io], the two error types of
    package [json], and any other error. *)
Inductive goerror : Type :=
| ThingsError (e : error)
| errUnsupportedContentType
| errInvalidQueryParams
| io_ErrUnexpectedEOF
| io_EOF
| json_SyntaxError (msg : string)
| json_UnmarshalTypeError (msg : string)
| OtherError (msg : string).

(** What a decoder returns: the request, or the error. *)
Inductive reply (A : Type) : Type :=
| Reply (a : A)
| Failure (e : goerror).
Arguments Reply {A} a.
Arguments Failure {A} e.

Definition contentType : string := "application/json".

(** The status codes of [net/http] the transport writes. *)
Definition StatusBadRequest : Z := 400.
Definition StatusForbidden : Z := 403.
Definition StatusNotFound : Z := 404.
Definition StatusConflict : Z := 409.
Definition StatusUnsupportedMediaType : Z := 415.
Definition StatusInternalServerError : Z := 500.

(** An [http.ResponseWriter]: the header map and the status line, once
    written. *)
Record ResponseWriter : Type := {
  header : gmap string string;
  status : option Z
}.

Definition NewWriter : ResponseWriter := {| header := ∅; status := None |}.

(** [w.Header().Set(k, v)]. *)
Definition Header_Set (w : ResponseWriter) (k v : string) : ResponseWriter :=
  {| header := <[k := v]> (header w); status := status w |}.

(** [w.WriteHeader(code)]: the first call writes the status line, a later
    one is ignored. *)
Definition WriteHeader (w : ResponseWriter) (code : Z) : ResponseWriter :=
  match status w with
  | None => {| header := header w; status := Some code |}
  | Some _ => w
  end.

Definition encodeError (err : goerror) (w : ResponseWriter) : ResponseWriter :=
  let w := Header_Set w "Content-Type" contentType in
  match err with
  | ThingsError ErrMalformedEntity => WriteHeader w StatusBadRequest
  | ThingsError ErrUnauthorizedAccess => WriteHeader w StatusForbidden
  | ThingsError ErrNotFound => WriteHeader w StatusNotFound
  | ThingsError ErrConflict => WriteHeader w StatusConflict
  | errUnsupportedContentType => WriteHeader w StatusUnsupportedMediaType
  | errInvalidQueryParams => WriteHeader w StatusBadRequest
  | io_ErrUnexpectedEOF => WriteHeader w StatusBadRequest
  | io_EOF => WriteHeader w StatusBadRequest
  | json_SyntaxError _ => WriteHeader w StatusBadRequest
  | json_UnmarshalTypeError _ => WriteHeader w StatusBadRequest
  | OtherError _ => WriteHeader w StatusInternalServerError
  end.

(** An [http.Request], as the decoders read it: the headers (a missing
    one reads as the empty string), the raw query of the URL, the body,
    and the values the router has bound to the names in the path. *)
Record Request : Type := {
  Header : gmap string string;
  RawQuery : string;
  Body : string;
  PathValues : gmap string string
}.

Definition Header_Get (r : Request) (k : string) : string :=
  default EmptyString (Header r !! k).

(** [bone.GetValue(r, name)]. *)
Definition GetValue (r : Request) (name : string) : string :=
  default EmptyString (PathValues r !! name).

Record addThingReq : Type := { addThing_key : string; addThing_thing : Thing.t }.
Record updateThingReq : Type :=
  { updateThing_key : string; updateThing_id : string; updateThing_thing : Thing.t }.
Record createChannelReq : Type :=
  { createChannel_key : string; createChannel_channel : Channel.t }.
Record updateChannelReq : Type :=
  { updateChannel_key : string; updateChannel_id : string;
    updateChannel_channel : Channel.t }.
Record viewResourceReq : Type := { view_key : string; view_id : string }.
Record listResourcesReq : Type :=
  { list_key : string; list_offset : Z; list_limit : Z }.
Record connectionReq : Type :=
  { conn_key : string; conn_chanID : string; conn_thingID : string }.

Section Decoders.

(** [json.NewDecoder(r.Body).Decode(&v)] for a thing and for a channel:
    the value, or the error of the decoder. *)
Variable decodeThing : string -> reply Thing.t.
Variable decodeChannel : string -> reply Channel.t.

(** [url.ParseQuery]: the values of each name, in their order, or an
    error ([None]). *)
Variable ParseQuery : string -> option (gmap string (list string)).

Definition decodeThingCreation (r : Request) : reply addThingReq :=
  if negb (String.eqb (Header_Get r "Content-Type") contentType) then
    Failure errUnsupportedContentType
  else
    match decodeThing (Body r) with
    | Failure e => Failure e
    | Reply thing =>
        Reply {| addThing_key := Header_Get r "Authorization";
                 addThing_thing := thing |}
    end.

Definition decodeThingUpdate (r : Request) : reply updateThingReq :=
  if negb (String.eqb (Header_Get r "Content-Type") contentType) then
    Failure errUnsupportedContentType
  else
    match decodeThing (Body r) with
    | Failure e => Failure e
    | Reply thing =>
        Reply {| updateThing_key := Header_Get r "Authorization";
                 updateThing_id := GetValue r "id";
                 updateThing_thing := thing |}
    end.

Definition decodeChannelCreation (r : Request) : reply createChannelReq :=
  if negb (String.eqb (Header_Get r "Content-Type") contentType) then
    Failure errUnsupportedContentType
  else
    match decodeChannel (Body r) with
    | Failure e => Failure e
    | Reply channel =>
        Reply {| createChannel_key := Header_Get r "Authorization";
                 createChannel_channel := channel |}
    end.

Definition decodeChannelUpdate (r : Request) : reply updateChannelReq :=
  if negb (String.eqb (Header_Get r "Content-Type") contentType) then
    Failure errUnsupportedContentType
  else
    match decodeChannel (Body r) with
    | Failure e => Failure e
    | Reply channel =>
        Reply {| updateChannel_key := Header_Get r "Authorization";
                 updateChannel_id := GetValue r "id";
                 updateChannel_channel := channel |}
    end.

Definition decodeView (r : Request) : reply viewResourceReq :=
  Reply {| view_key := Header_Get r "Authorization"; view_id := GetValue r "id" |}.

(** The values of a name in the parsed query; none when it is absent. *)
Definition values (q : gmap string (list string)) (name : string) : list string :=
  default [] (q !! name).

Definition decodeList (r : Request) : reply listResourcesReq :=
  match ParseQuery (RawQuery r) with
  | None => Failure errInvalidQueryParams
  | Some q =>
      let offset := 0 in
      let limit := 10 in
      let off := values q "offset" in
      let lmt := values q "limit" in
      if (1 <? length off)%nat || (1 <? length lmt)%nat then
        Failure errInvalidQueryParams
      else
        let offset_parsed :=
          match off with
          | [s] => strconv.Atoi s
          | _ => Some offset
          end in
        match offset_parsed with
        | None => Failure errInvalidQueryParams
        | Some offset =>
            let limit_parsed :=
              match lmt with
              | [s] => strconv.Atoi s
              | _ => Some limit
              end in
            match limit_parsed with
            | None => Failure errInvalidQueryParams
            | Some limit =>
                Reply {| list_key := Header_Get r "Authorization";
                         list_offset := offset;
                         list_limit := limit |}
            end
        end
  end.

Definition decodeConnection (r : Request) : reply connectionReq :=
  Reply {| conn_key := Header_Get r "Authorization";
           conn_chanID := GetValue r "chanId";
           conn_thingID := GetValue r "thingId" |}.

End Decoders.

End transport.

(** ** A third scenario: one owner, three channels *)

Module scenario3.
Import fixtures.

Definition c1 : Channel.t := Channel.mk "123e4567-e89b-12d3-a456-000000000001" "u" "a" [] [].
Definition c2 : Channel.t := Channel.mk "123e4567-e89b-12d3-a456-000000000002" "u" "b" [] [].
Definition c3 : Channel.t := Channel.mk "123e4567-e89b-12d3-a456-000000000003" "u" "c" [] [].

(** Owner [u] creates three channels, one after the other. *)
Definition created : service :=
  let s := snd (CreateChannel scenario2.fresh "tok-u" (Channel.mk EmptyString EmptyString "a" [] [])) in
  let s := snd (CreateChannel s "tok-u" (Channel.mk EmptyString EmptyString "b" [] [])) in
  snd (CreateChannel s "tok-u" (Channel.mk EmptyString EmptyString "c" [] [])).

Definition visit : list (string * Channel.t) :=
  map_to_list (mocks.channels (channels created)).

(** A list request with its parameters in the query, as [url.ParseQuery]
    reads it: [offset=1&limit=2]. *)
Definition list_request : transport.Request :=
  {| transport.Header := {[ "Authorization" := "tok-u" ]};
     transport.RawQuery := "offset=1&limit=2";
     transport.Body := EmptyString;
     transport.PathValues := ∅ |}.

Definition parsed_query (raw : string) : option (gmap string (list string)) :=
  if String.eqb raw "offset=1&limit=2" then
    Some {[ "offset" := ["1"]; "limit" := ["2"] ]}
  else None.

(** A creation request whose content type names a character set. *)
Definition charset_request : transport.Request :=
  {| transport.Header := {[ "Content-Type" := "application/json; charset=utf-8";
                            "Authorization" := "tok-u" ]};
     transport.RawQuery := EmptyString;
     transport.Body := "{}";
     transport.PathValues := {[ "id" := "7" ]} |}.

End scenario3.

(** * Properties *)

(** ** The renderings and tests on examples *)

Example Sprintf_012d_one : Sprintf_012d 1 = "000000000001".
Proof. reflexivity. Qed.

Example Sprintf_012d_negative_42 : Sprintf_012d (-42) = "-00000000042".
Proof. reflexivity. Qed.

Example Sprintf_012d_thirteen_digits : Sprintf_012d (10 ^ 12) = "1000000000000".
Proof. reflexivity. Qed.

Example Sprintf_012d_min_int : Sprintf_012d (- 2 ^ 63) = "-9223372036854775808".
Proof. vm_compute. reflexivity. Qed.

Example int_add_wraps : int_add (int_add 0 (2 ^ 63 - 1)) 1 = - 2 ^ 63.
Proof. reflexivity. Qed.

Example HasPrefix_longer_owner : HasPrefix (key "u-v" "7") "u-" = true.
Proof. reflexivity. Qed.

Example HasSuffix_key : HasSuffix (key "u" "7") "-7" = true.
Proof. reflexivity. Qed.

Example HasSuffix_shorter : HasSuffix "7" "-7" = false.
Proof. reflexivity. Qed.

Example key_collision : key "u-v" "7" = key "u" "v-7".
Proof. reflexivity. Qed.

Example SliceStable_keeps_equal_in_order :
  SliceStable (fun a b : Z * Z => fst a <? fst b) [(2, 0); (1, 1); (2, 2); (1, 3)]
  = [(1, 1); (1, 3); (2, 0); (2, 2)].
Proof. reflexivity. Qed.

(** ** Strings *)

Section StringFacts.

Lemma app_cons a s t : String a s +:+ t = String a (s +:+ t).
Proof. reflexivity. Qed.

Lemma app_empty_r s : s +:+ EmptyString = s.
Proof. induction s as [|a s IH]; [done|]. by rewrite app_cons, IH. Qed.

Lemma app_assoc_s s t u : (s +:+ t) +:+ u = s +:+ (t +:+ u).
Proof. induction s as [|a s IH]; [done|]. by rewrite !app_cons, IH. Qed.

Lemma length_app_s s t :
  String.length (s +:+ t) = (String.length s + String.length t)%nat.
Proof. induction s as [|a s IH]; [done|]. rewrite app_cons. simpl. by rewrite IH. Qed.

Lemma substring_0_all t : substring 0 (String.length t) t = t.
Proof. induction t as [|a t IH]; [done|]. simpl. by rewrite IH. Qed.

Lemma substring_app_l s t : substring 0 (String.length s) (s +:+ t) = s.
Proof.
  induction s as [|a s IH]; [by destruct t|].
  rewrite app_cons. simpl. by rewrite IH.
Qed.

Lemma substring_app_r s t :
  substring (String.length s) (String.length t) (s +:+ t) = t.
Proof.
  induction s as [|a s IH]; [apply substring_0_all|].
  rewrite app_cons. simpl. apply IH.
Qed.

Lemma substring_split n s :
  (n <= String.length s)%nat ->
  s = substring 0 n s +:+ substring n (String.length s - n) s.
Proof.
  revert n. induction s as [|a s IH]; intros [|n] Hn; simpl in *; try lia.
  - done.
  - by rewrite substring_0_all.
  - rewrite app_cons. f_equal. apply IH. lia.
Qed.

Lemma HasPrefix_spec s pre :
  HasPrefix s pre = true <-> exists r, s = pre +:+ r.
Proof.
  unfold HasPrefix. rewrite andb_true_iff, Nat.leb_le, String.eqb_eq. split.
  - intros [Hlen Hsub].
    exists (substring (String.length pre) (String.length s - String.length pre) s).
    pose proof (substring_split _ s Hlen) as E. by rewrite Hsub in E.
  - intros [r ->]. rewrite length_app_s, substring_app_l. split; [lia|done].
Qed.

Lemma HasSuffix_spec s suf :
  HasSuffix s suf = true <-> exists r, s = r +:+ suf.
Proof.
  unfold HasSuffix. rewrite andb_true_iff, Nat.leb_le, String.eqb_eq. split.
  - intros [Hlen Hsub].
    exists (substring 0 (String.length s - String.length suf) s).
    pose proof (substring_split (String.length s - String.length suf) s) as E.
    replace (String.length s - (String.length s - String.length suf))%nat
      with (String.length suf) in E by lia.
    rewrite Hsub in E. apply E. lia.
  - intros [r ->]. rewrite length_app_s. split; [lia|].
    replace (String.length r + String.length suf - String.length suf)%nat
      with (String.length r) by lia.
    apply substring_app_r.
Qed.

Lemma no_sep_app s t : no_sep (s +:+ t) = no_sep s && no_sep t.
Proof.
  induction s as [|a s IH]; [done|].
  rewrite app_cons. simpl. rewrite IH. by rewrite andb_assoc.
Qed.

(** Two composed keys with separator-free owners are equal only for the
    same owner and the same id. *)
Lemma key_inj a b x y :
  no_sep a = true -> no_sep b = true ->
  key a x = key b y -> a = b /\ x = y.
Proof.
  unfold key. revert b.
  induction a as [|c a IH]; intros [|d b] Ha Hb Heq; simpl in *.
  - by simplify_eq.
  - rewrite app_cons in Heq. injection Heq as <- _.
    by rewrite Ascii.eqb_refl in Hb.
  - rewrite app_cons in Heq. injection Heq as -> _.
    by rewrite Ascii.eqb_refl in Ha.
  - rewrite !app_cons in Heq. injection Heq as -> Heq.
    apply andb_true_iff in Ha as [_ Ha], Hb as [_ Hb].
    destruct (IH b Ha Hb Heq) as [-> ->]. done.
Qed.

(** A composed key of a separator-free owner starts with the prefix of
    another separator-free owner only when the owners are the same. *)
Lemma key_prefix_owner a b x :
  no_sep a = true -> no_sep b = true ->
  HasPrefix (key a x) (b +:+ String sep EmptyString) = true -> a = b.
Proof.
  intros Ha Hb [r Hr]%HasPrefix_spec.
  rewrite app_assoc_s in Hr. change (String sep EmptyString +:+ r) with (String sep r) in Hr.
  by destruct (key_inj a b x r Ha Hb Hr).
Qed.

Lemma key_has_prefix a x :
  HasPrefix (key a x) (a +:+ String sep EmptyString) = true.
Proof.
  apply HasPrefix_spec. exists x. by rewrite app_assoc_s.
Qed.

Lemma key_has_suffix a x : HasSuffix (key a x) (String sep x) = true.
Proof. apply HasSuffix_spec. by exists a. Qed.

End StringFacts.

(** ** Decimal rendering and the order of fixed-width identifiers *)

Section Decimal.

Lemma ascii_compare_refl c : Ascii.compare c c = Eq.
Proof. unfold Ascii.compare. apply N.compare_refl. Qed.

Lemma compare_refl_s s : String.compare s s = Eq.
Proof. induction s as [|a s IH]; [done|]. simpl. by rewrite ascii_compare_refl. Qed.

Lemma compare_app_prefix p a b :
  String.compare (p +:+ a) (p +:+ b) = String.compare a b.
Proof.
  induction p as [|c p IH]; [done|].
  rewrite !app_cons. simpl. by rewrite ascii_compare_refl.
Qed.

Lemma compare_app_same_length a b x y :
  String.length a = String.length b ->
  String.compare (a +:+ x) (b +:+ y) =
    match String.compare a b with
    | Eq => String.compare x y
    | c => c
    end.
Proof.
  revert b. induction a as [|c a IH]; intros [|d b] Hlen; try done.
  rewrite !app_cons. simpl in *.
  destruct (Ascii.compare c d); [|done..]. apply IH. lia.
Qed.

Lemma digit_compare d e :
  0 <= d < 10 -> 0 <= e < 10 ->
  Ascii.compare (digit d) (digit e) = (d ?= e).
Proof.
  intros Hd He.
  assert (Hcase : forall x, 0 <= x < 10 ->
            x = 0 \/ x = 1 \/ x = 2 \/ x = 3 \/ x = 4 \/
            x = 5 \/ x = 6 \/ x = 7 \/ x = 8 \/ x = 9) by (intros; lia).
  destruct (Hcase d Hd) as [->|[->|[->|[->|[->|[->|[->|[->|[->| ->]]]]]]]]];
    destruct (Hcase e He) as [->|[->|[->|[->|[->|[->|[->|[->|[->| ->]]]]]]]]];
    reflexivity.
Qed.

Lemma fixed_go_app w n acc : fixed_go w n acc = fixed w n +:+ acc.
Proof.
  unfold fixed. revert n acc. induction w as [|w IH]; intros n acc; [done|].
  simpl. rewrite (IH _ (String _ EmptyString)), IH.
  by rewrite app_assoc_s.
Qed.

Lemma fixed_S w n :
  fixed (S w) n = fixed w (n / 10) +:+ String (digit (n mod 10)) EmptyString.
Proof. unfold fixed at 1. simpl. apply fixed_go_app. Qed.

Lemma fixed_length w n : String.length (fixed w n) = w.
Proof.
  revert n. induction w as [|w IH]; intros n; [done|].
  rewrite fixed_S, length_app_s, IH. simpl. lia.
Qed.

Lemma compare_digits_step n m :
  0 <= n -> 0 <= m ->
  (n ?= m) =
    match n / 10 ?= m / 10 with
    | Eq => n mod 10 ?= m mod 10
    | c => c
    end.
Proof.
  intros Hn Hm.
  pose proof (Z.div_mod n 10 ltac:(done)) as En.
  pose proof (Z.div_mod m 10 ltac:(done)) as Em.
  pose proof (Z.mod_pos_bound n 10 ltac:(done)) as Bn.
  pose proof (Z.mod_pos_bound m 10 ltac:(done)) as Bm.
  revert En Em Bn Bm.
  generalize (n / 10) (n mod 10) (m / 10) (m mod 10).
  intros qn rn qm rm -> -> Bn Bm.
  destruct (Z.compare_spec qn qm).
  - destruct (Z.compare_spec rn rm).
    + apply Z.compare_eq_iff. lia.
    + apply Z.compare_lt_iff. lia.
    + apply Z.compare_gt_iff. lia.
  - apply Z.compare_lt_iff. lia.
  - apply Z.compare_gt_iff. lia.
Qed.

(** On numbers of [w] digits the bytewise order of the renderings is the
    order of the numbers. *)
Lemma fixed_compare w n m :
  0 <= n < 10 ^ Z.of_nat w -> 0 <= m < 10 ^ Z.of_nat w ->
  String.compare (fixed w n) (fixed w m) = (n ?= m).
Proof.
  revert n m. induction w as [|w IH]; intros n m Hn Hm.
  - simpl in *. assert (n = 0) as -> by lia. by assert (m = 0) as -> by lia.
  - rewrite Nat2Z.inj_succ, Z.pow_succ_r in Hn, Hm by lia.
    rewrite !fixed_S, compare_app_same_length by (by rewrite !fixed_length).
    rewrite IH by (split; [apply Z.div_pos; lia | apply Z.div_lt_upper_bound; lia]).
    rewrite (compare_digits_step n m) by lia.
    destruct (n / 10 ?= m / 10); try done.
    cbn [String.compare]. rewrite digit_compare by (by apply Z.mod_pos_bound).
    by destruct (n mod 10 ?= m mod 10).
Qed.

Lemma fixed_inj w n m :
  0 <= n < 10 ^ Z.of_nat w -> 0 <= m < 10 ^ Z.of_nat w ->
  fixed w n = fixed w m -> n = m.
Proof.
  intros Hn Hm Heq. apply Z.compare_eq_iff.
  rewrite <- (fixed_compare w) by done. rewrite Heq. apply compare_refl_s.
Qed.

Lemma fixed_go_zero w acc : fixed_go w 0 acc = zeros w +:+ acc.
Proof.
  revert acc. induction w as [|w IH]; intros acc; [done|].
  simpl. change (0 / 10) with 0. rewrite IH.
  change (digit (0 mod 10)) with "0"%char.
  clear IH. induction w as [|w IH]; [done|].
  simpl. rewrite !app_cons. by rewrite IH.
Qed.

Lemma itoa_go_pad fuel w n acc :
  0 <= n < 10 ^ Z.of_nat w -> (1 <= w <= fuel)%nat ->
  zeros (w + String.length acc - String.length (itoa_go fuel n acc))
    +:+ itoa_go fuel n acc
  = fixed_go w n acc.
Proof.
  revert w n acc. induction fuel as [|fuel IH]; intros w n acc Hn Hw; [lia|].
  destruct w as [|w]; [lia|]. simpl itoa_go. simpl fixed_go.
  rewrite Nat2Z.inj_succ, Z.pow_succ_r in Hn by lia.
  destruct (Z.eqb_spec (n / 10) 0) as [Hz|Hnz].
  - rewrite Hz, fixed_go_zero. simpl String.length.
    by replace (S w + String.length acc - S (String.length acc))%nat with w by lia.
  - assert (10 <= n).
    { destruct (Z.lt_ge_cases n 10); [|done].
      by rewrite Z.div_small in Hnz by lia. }
    assert (w <> 0%nat).
    { intros ->. simpl in Hn. lia. }
    rewrite <- (IH w (n / 10)).
    + simpl String.length.
      by replace (S w + String.length acc)%nat
        with (w + S (String.length acc))%nat by lia.
    + split; [apply Z.div_pos; lia | apply Z.div_lt_upper_bound; lia].
    + lia.
Qed.

(** [%012d] of a number of at most twelve digits is its twelve-digit
    rendering. *)
Lemma Sprintf_012d_fixed n :
  0 <= n < 10 ^ 12 -> Sprintf_012d n = fixed 12 n.
Proof.
  intros Hn. unfold Sprintf_012d.
  destruct (Z.ltb_spec n 0); [lia|].
  unfold zero_pad, itoa, fixed.
  rewrite <- (itoa_go_pad 20 12 n EmptyString) by (simpl; lia).
  done.
Qed.

(** [%012d] of a negative number starts with the sign. *)
Lemma Sprintf_012d_negative n :
  n < 0 -> exists s, Sprintf_012d n = String "-"%char s.
Proof.
  intros Hn. unfold Sprintf_012d.
  destruct (Z.ltb_spec n 0); [|lia]. eauto.
Qed.

End Decimal.

(** ** Stable sorting *)

Section SliceStableFacts.
Context {A : Type} (less : A -> A -> bool).

Hypothesis less_asym : forall a b, less a b = true -> less b a = false.

Lemma insert_stable_perm x l : insert_stable less x l ≡ₚ x :: l.
Proof.
  induction l as [|y l IH]; simpl; [done|].
  destruct (less y x); [|done].
  rewrite IH. apply Permutation_swap.
Qed.

Lemma SliceStable_perm l : SliceStable less l ≡ₚ l.
Proof.
  induction l as [|x l IH]; simpl; [done|].
  fold (SliceStable less l). by rewrite insert_stable_perm, IH.
Qed.

Lemma insert_stable_HdRel y x l :
  HdRel (not_after less) y l -> not_after less y x -> HdRel (not_after less) y (insert_stable less x l).
Proof.
  intros Hl Hx. destruct l as [|z l]; simpl.
  - by constructor.
  - inversion_clear Hl. destruct (less z x); by constructor.
Qed.

Lemma insert_stable_Sorted x l :
  Sorted (not_after less) l -> Sorted (not_after less) (insert_stable less x l).
Proof.
  induction 1 as [|y l Hs IH Hhd]; simpl.
  - by repeat constructor.
  - destruct (less y x) eqn:Hyx.
    + constructor; [done|].
      apply insert_stable_HdRel; [done|]. by apply less_asym.
    + constructor; [by constructor|]. by constructor.
Qed.

Lemma SliceStable_Sorted l : Sorted (not_after less) (SliceStable less l).
Proof.
  induction l as [|x l IH]; simpl; [constructor|].
  by apply insert_stable_Sorted.
Qed.

End SliceStableFacts.

Lemma lt_asym_s a b : String.ltb a b = true -> String.ltb b a = false.
Proof.
  unfold String.ltb. rewrite (String.compare_antisym b a).
  by destruct (String.compare a b).
Qed.

(** ** The channel repository, operation by operation *)

Section StoreFacts.
Context {TR : Type} `{ThingRepository TR}.

Lemma set_channels_same crm : mocks.set_channels crm (mocks.channels crm) = crm.
Proof. by destruct crm. Qed.


Lemma Update_hit crm c old :
  mocks.channels crm !! key (Channel.Owner c) (Channel.ID c) = Some old ->
  mocks.Update crm c =
    (None,
     mocks.set_channels crm
       (<[key (Channel.Owner c) (Channel.ID c) := c]> (mocks.channels crm))).
Proof. unfold mocks.Update. by intros ->. Qed.

Lemma One_Ok crm owner id c :
  mocks.One crm owner id = Ok c <-> mocks.channels crm !! key owner id = Some c.
Proof.
  unfold mocks.One. destruct (mocks.channels crm !! key owner id); split; congruence.
Qed.

(** The appending loop of [Disconnect] keeps the initial slots and adds
    the things with another ID, in their order. *)
Lemma Disconnect_fold ts thingID (acc : list Thing.t) :
  fold_left
    (fun connected thing =>
       if negb (String.eqb (Thing.ID thing) thingID)
       then connected ++ [thing] else connected) ts acc
  = acc ++ filter (fun t => Thing.ID t <> thingID) ts.
Proof.
  revert acc. induction ts as [|t ts IH]; intros acc; simpl.
  - by rewrite app_nil_r.
  - rewrite IH. destruct (String.eqb_spec (Thing.ID t) thingID) as [Heq|Hne]; simpl.
    + by rewrite filter_cons_False by (by intros ?).
    + rewrite filter_cons_True by done. by rewrite <- app_assoc.
Qed.

Lemma Disconnect_connected_eq ts thingID :
  mocks.Disconnect_connected ts thingID =
    replicate (length ts - 1) Thing.zero
    ++ filter (fun t => Thing.ID t <> thingID) ts.
Proof. apply Disconnect_fold. Qed.

Lemma Disconnect_loop_miss crm channel ts thingID :
  (forall t, t ∈ ts -> Thing.ID t <> thingID) ->
  mocks.Disconnect_loop crm channel ts thingID = (Some ErrNotFound, crm).
Proof.
  induction ts as [|t ts IH]; intros Hts; simpl; [done|].
  destruct (String.eqb_spec (Thing.ID t) thingID) as [Heq|Hne].
  - destruct (Hts t); [left | done].
  - apply IH. intros t' Ht'. apply Hts. by right.
Qed.

Lemma Disconnect_loop_hit crm channel ts thingID t :
  t ∈ ts -> Thing.ID t = thingID ->
  mocks.Disconnect_loop crm channel ts thingID =
    mocks.Update crm
      (Channel.with_Things channel
         (mocks.Disconnect_connected (Channel.Things channel) thingID)).
Proof.
  induction ts as [|t' ts IH]; intros Hin Hid; simpl.
  - by apply elem_of_nil in Hin.
  - destruct (String.eqb_spec (Thing.ID t') thingID) as [Heq|Hne]; [done|].
    apply IH; [|done]. apply elem_of_cons in Hin as [->|Hin]; [done|done].
Qed.

Lemma HasThing_scan_miss ts k :
  (forall t, t ∈ ts -> Thing.Key t <> k) ->
  mocks.HasThing_scan ts k = Err ErrNotFound.
Proof.
  induction ts as [|t ts IH]; intros Hts; simpl; [done|].
  destruct (String.eqb_spec (Thing.Key t) k) as [Heq|Hne].
  - destruct (Hts t); [left | done].
  - apply IH. intros t' Ht'. apply Hts. by right.
Qed.

Lemma HasThing_scan_app ts t rest :
  (forall t', t' ∈ ts -> Thing.Key t' <> Thing.Key t) ->
  mocks.HasThing_scan (ts ++ t :: rest) (Thing.Key t) = Ok (Thing.ID t).
Proof.
  induction ts as [|t' ts IH]; intros Hts; simpl.
  - by rewrite String.eqb_refl.
  - destruct (String.eqb_spec (Thing.Key t') (Thing.Key t)) as [Heq|Hne].
    + destruct (Hts t'); [left | done].
    + apply IH. intros t'' Ht''. apply Hts. by right.
Qed.

(** When one visited channel alone carries the suffix, [HasThing] scans
    that channel, whatever the order of the visit. *)
Lemma HasThing_loop_unique visit suffix k dbKey c :
  (dbKey, c) ∈ visit ->
  HasSuffix dbKey suffix = true ->
  (forall dbKey' c', (dbKey', c') ∈ visit ->
     HasSuffix dbKey' suffix = true -> c' = c) ->
  mocks.HasThing_loop visit suffix k = mocks.HasThing_scan (Channel.Things c) k.
Proof.
  induction visit as [|[k' c'] visit IH]; intros Hin Hsuf Huniq; simpl.
  - by apply elem_of_nil in Hin.
  - destruct (HasSuffix k' suffix) eqn:Hk'.
    + by rewrite (Huniq k' c') by (left || done).
    + apply IH; [|done|].
      * apply elem_of_cons in Hin as [[= <- <-]|Hin]; [congruence|done].
      * intros k'' c'' Hin'. apply Huniq. by right.
Qed.

Lemma ranges_elem_of m visit k c :
  mocks.ranges m visit -> (k, c) ∈ visit <-> m !! k = Some c.
Proof. intros Hr. unfold mocks.ranges in Hr. by rewrite Hr, elem_of_map_to_list. Qed.

Lemma ranges_map_to_list m : mocks.ranges m (map_to_list m).
Proof. unfold mocks.ranges. reflexivity. Qed.

End StoreFacts.

(** ** The service over the repository *)

Section ServiceFacts.
Context {TR I : Type} `{ThingRepository TR} `{IdentityProvider I}.
Implicit Types ts : thingsService TR I.

Lemma set_chans_same ts : set_chans ts (channels ts) = ts.
Proof. by destruct ts. Qed.

Lemma connected_One ts owner chanID c :
  mocks.One (channels ts) owner chanID = Ok c ->
  connected (channels ts) owner chanID = Channel.Things c.
Proof. intros Hc%One_Ok. unfold connected. by rewrite Hc. Qed.

End ServiceFacts.

(** ** Disconnect of a non-member *)

(** C7. For every channel and every thing id that is not in the connected
    set of that channel, Disconnect fails with NotFound and leaves the
    connected set and the rest of the store exactly as they were: the
    repository returns its state unchanged, and so does the service. *)
Theorem Disconnect_non_member_NotFound {TR I : Type}
    `{ThingRepository TR} `{IdentityProvider I}
    (ts : thingsService TR I) (k owner chanID thingID : string) :
  users ts k = Some owner ->
  (forall t, t ∈ connected (channels ts) owner chanID -> Thing.ID t <> thingID) ->
  mocks.Disconnect (channels ts) owner chanID thingID
    = (Some ErrNotFound, channels ts)
  /\ Disconnect ts k chanID thingID = (Some ErrNotFound, ts).
Proof.
  intros Hk Hnot.
  assert (Hrepo : mocks.Disconnect (channels ts) owner chanID thingID
                  = (Some ErrNotFound, channels ts)).
  { unfold mocks.Disconnect, mocks.One. unfold connected in Hnot.
    destruct (mocks.channels (channels ts) !! key owner chanID) as [c|]; [|done].
    by apply Disconnect_loop_miss. }
  split; [done|].
  unfold Disconnect. rewrite Hk, Hrepo. by rewrite set_chans_same.
Qed.

Lemma Disconnect_non_member_NotFound_witness :
  users scenario.connected1 "tok-u" = Some "u"
  /\ connected (channels scenario.connected1) "u" scenario.c1_id = [scenario.t1]
  /\ Disconnect scenario.connected1 "tok-u" scenario.c1_id scenario.t2_id
     = (Some ErrNotFound, scenario.connected1).
Proof.
  assert (Hk : users scenario.connected1 "tok-u" = Some "u") by reflexivity.
  assert (Hc : connected (channels scenario.connected1) "u" scenario.c1_id
               = [scenario.t1]) by (vm_compute; reflexivity).
  split; [exact Hk|]. split; [exact Hc|].
  refine (proj2 (Disconnect_non_member_NotFound scenario.connected1
                   "tok-u" "u" scenario.c1_id scenario.t2_id Hk _)).
  rewrite Hc. intros t Ht. apply list_elem_of_singleton in Ht. subst t. discriminate.
Defined.

(** ** Update of an unknown (owner, id) pair *)



(** Where the owners are free of the separator, a pair that no stored
    channel carries as its owner and ID has no entry under its key. *)
Lemma unknown_pair_no_entry (m : gmap string Channel.t) (owner id : string) :
  well_keyed m -> owners_plain m -> no_sep owner = true ->
  (forall c, stored m c -> Channel.Owner c = owner -> Channel.ID c <> id) ->
  m !! key owner id = None.
Proof.
  intros Hwk Hop Howner Hnone.
  destruct (m !! key owner id) as [c|] eqn:Hl; [|done].
  pose proof (Hwk _ _ Hl) as Hkey. pose proof (Hop _ _ Hl) as Hc.
  simpl in Hkey, Hc.
  destruct (key_inj _ _ _ _ Howner Hc Hkey) as [-> ->].
  destruct (Hnone c); [by exists (key (Channel.Owner c) (Channel.ID c))|done..].
Qed.

(** With an owner that contains the separator the keys of two pairs can
    coincide: after owner [u-v] has created a channel, UpdateChannel of
    owner [u] under the id [v-] followed by the id of that channel finds
    the entry and replaces it. *)
Example Update_under_coinciding_key :
  let s := snd (CreateChannel fixtures.fresh "tok-u-v" scenario.c1_request) in
  let r := Channel.mk ("v-" +:+ scenario.t1_id) "root" "taken" [] [] in
  mocks.One (channels s) "u-v" scenario.t1_id
    = Ok (Channel.mk scenario.t1_id "u-v" "room" [] [])
  /\ fst (UpdateChannel s "tok-u" r) = None
  /\ mocks.One (channels (snd (UpdateChannel s "tok-u" r))) "u-v" scenario.t1_id
     = Ok (Channel.mk ("v-" +:+ scenario.t1_id) "u" "taken" [] []).
Proof.
  cbv zeta. split; [vm_compute; reflexivity|].
  split; vm_compute; reflexivity.
Qed.

(** ** Remove of an absent resource *)

(** C9, as the claim states it: Remove under a pair with nothing stored
    would report NotFound. On an empty repository it reports no error, in
    the repository and through the service. *)
Lemma Remove_absent_counterexample :
  mocks.channels (channels fixtures.fresh) !! key "u" scenario.c1_id = None
  /\ fst (mocks.Remove (channels fixtures.fresh) "u" scenario.c1_id) = None
  /\ fst (RemoveChannel fixtures.fresh "tok-u" scenario.c1_id) <> Some ErrNotFound.
Proof.
  split; [vm_compute; reflexivity|]. split; [reflexivity|].
  vm_compute. discriminate.
Qed.

(** C9, amended. Remove never reports an error: for every owner and id it
    returns nil, and when nothing is stored under the pair (owner, id) the
    store is left exactly as it was. *)
Theorem Remove_absent_succeeds {TR I : Type}
    `{ThingRepository TR} `{IdentityProvider I}
    (ts : thingsService TR I) (k owner id : string) :
  users ts k = Some owner ->
  mocks.channels (channels ts) !! key owner id = None ->
  mocks.Remove (channels ts) owner id = (None, channels ts)
  /\ RemoveChannel ts k id = (None, ts)
  /\ (forall crm owner' id', fst (mocks.Remove crm owner' id') = None).
Proof.
  intros Hk Hnone.
  assert (Hrepo : mocks.Remove (channels ts) owner id = (None, channels ts)).
  { unfold mocks.Remove. by rewrite delete_id, set_channels_same. }
  split; [done|]. split; [|done].
  unfold RemoveChannel. rewrite Hk, Hrepo. by rewrite set_chans_same.
Qed.

Lemma Remove_absent_succeeds_witness :
  users scenario.created "tok-v" = Some "v"
  /\ mocks.channels (channels scenario.created) !! key "v" scenario.c1_id = None
  /\ RemoveChannel scenario.created "tok-v" scenario.c1_id = (None, scenario.created).
Proof.
  assert (Hk : users scenario.created "tok-v" = Some "v") by reflexivity.
  assert (Hn : mocks.channels (channels scenario.created) !! key "v" scenario.c1_id
               = None) by (vm_compute; reflexivity).
  split; [exact Hk|]. split; [exact Hn|].
  exact (proj1 (proj2 (Remove_absent_succeeds scenario.created "tok-v" "v"
                         scenario.c1_id Hk Hn))).
Defined.

(** ** Save under a taken key *)

(** C10, as the claim states it: a Save whose (owner, id) key is taken
    would fail with Conflict and keep the stored channel. The second Save
    of the example succeeds and the channel of the first one is gone. *)
Lemma Save_collision_counterexample :
  let old := Channel.mk scenario.c1_id "u" "room" [] [scenario.t1] in
  let new := Channel.mk scenario.c1_id "u" "hall" [] [] in
  let crm := snd (mocks.Save mocks.NewChannelRepository old) in
  mocks.One crm "u" scenario.c1_id = Ok old
  /\ fst (mocks.Save crm new) = Ok scenario.c1_id
  /\ fst (mocks.Save crm new) <> Err ErrConflict
  /\ mocks.One (snd (mocks.Save crm new)) "u" scenario.c1_id = Ok new
  /\ new <> old.
Proof.
  cbv zeta.
  split; [vm_compute; reflexivity|]. split; [reflexivity|].
  split; [discriminate|]. split; [vm_compute; reflexivity|]. discriminate.
Qed.

(** C10, amended. Save never fails: for every repository state and every
    channel it returns the ID of the channel and stores the channel under
    its (owner, id) key, in place of whatever was stored there; the other
    keys keep their entries. *)
Theorem Save_overwrites (crm : mocks.channelRepositoryMock) (c : Channel.t) :
  fst (mocks.Save crm c) = Ok (Channel.ID c)
  /\ mocks.One (snd (mocks.Save crm c)) (Channel.Owner c) (Channel.ID c) = Ok c
  /\ (forall dbKey, dbKey <> key (Channel.Owner c) (Channel.ID c) ->
        mocks.channels (snd (mocks.Save crm c)) !! dbKey = mocks.channels crm !! dbKey).
Proof.
  split; [done|]. split.
  - unfold mocks.One. simpl. by rewrite lookup_insert_eq.
  - intros dbKey Hne. simpl. by rewrite lookup_insert_ne.
Qed.

(** ** Creation stamps the identifier and the owner *)

(** C8. For every credential that resolves to owner [owner] and every
    resource the caller supplies, CreateChannel returns the channel with
    the identifier the identity provider has just generated and with owner
    [owner], and has stored it so; AddThing returns the thing with the
    generated identifier, owner [owner] and the next generated value as
    device key when the thing store saves it, and the error of the store
    otherwise. The id, the owner and the key of the request appear nowhere
    in the result. *)
Theorem Add_stamps_id_and_owner {TR I : Type}
    `{ThingRepository TR} `{IdentityProvider I}
    (ts : thingsService TR I) (k owner : string)
    (thing : Thing.t) (channel : Channel.t) :
  users ts k = Some owner ->
  let id := fst (idp_ID (idp ts)) in
  let devkey := fst (idp_ID (snd (idp_ID (idp ts)))) in
  let c := Channel.mk id owner (Channel.Name channel)
             (Channel.Metadata channel) (Channel.Things channel) in
  let t := Thing.mk id owner devkey (Thing.Name thing) (Thing.Metadata thing) in
  fst (CreateChannel ts k channel) = Ok c
  /\ mocks.One (channels (snd (CreateChannel ts k channel))) owner id = Ok c
  /\ fst (AddThing ts k thing) =
       match fst (thing_Save (things ts) t) with
       | Ok _ => Ok t
       | Err e => Err e
       end.
Proof.
  intros Hk id devkey c t. subst id devkey c t.
  unfold CreateChannel, AddThing. rewrite Hk.
  destruct (idp_ID (idp ts)) as [id i1]. simpl.
  destruct (idp_ID i1) as [devkey i2]. simpl. split; [done|]. split.
  - unfold mocks.One. simpl. by rewrite lookup_insert_eq.
  - unfold Thing.with_stamp.
    destruct (thing_Save (things ts) _) as [[x|e] tr]; done.
Qed.

Lemma Add_stamps_id_and_owner_witness :
  users fixtures.fresh "tok-u" = Some "u"
  /\ fst (AddThing fixtures.fresh "tok-u" scenario.t1_request) = Ok scenario.t1
  /\ fst (CreateChannel fixtures.fresh "tok-u" scenario.c1_request)
     = Ok (Channel.mk scenario.t1_id "u" "room" [] []).
Proof.
  assert (Hk : users fixtures.fresh "tok-u" = Some "u") by reflexivity.
  pose proof (Add_stamps_id_and_owner fixtures.fresh "tok-u" "u"
                scenario.t1_request scenario.c1_request Hk) as (Hc & _ & Ht).
  split; [exact Hk|]. split; [exact Ht | exact Hc].
Defined.

(** ** Disconnect of a member *)

(** C6, on the code: the channel of the scenario holds the things [t1] and
    [t2]; Disconnect of [t1] succeeds and leaves the connected set
    [[Thing.zero; t2]]: the slice made with length [len - 1] keeps its zero
    value in front of the remaining thing, a member that was not there. *)
Theorem Disconnect_adds_zero_thing :
  connected (channels scenario.connected12) "u" scenario.c1_id
    = [scenario.t1; scenario.t2]
  /\ fst (Disconnect scenario.connected12 "tok-u" scenario.c1_id scenario.t1_id)
     = None
  /\ connected (channels scenario.disconnected12) "u" scenario.c1_id
     = [Thing.zero; scenario.t2]
  /\ Thing.zero ∉ [scenario.t1; scenario.t2].
Proof.
  split; [vm_compute; reflexivity|]. split; [vm_compute; reflexivity|].
  split; [vm_compute; reflexivity|].
  intros Hin. apply elem_of_cons in Hin as [Hz|Hin]; [discriminate|].
  apply list_elem_of_singleton in Hin. discriminate.
Qed.

(** ** Invariants of the channel map *)

Section Invariants.
Context {TR I : Type} `{ThingRepository TR} `{IdentityProvider I}.

(** A property of the entries that only looks at key, owner and ID. *)
Variable Q : string -> Channel.t -> Prop.
Hypothesis Q_things :
  forall k c ts, Q k c ->
    Q (key (Channel.Owner c) (Channel.ID c)) (Channel.with_Things c ts).

Lemma Save_Forall crm c :
  map_Forall Q (mocks.channels crm) ->
  Q (key (Channel.Owner c) (Channel.ID c)) c ->
  map_Forall Q (mocks.channels (snd (mocks.Save crm c))).
Proof. intros Hm Hc. simpl. by apply map_Forall_insert_2. Qed.

Lemma Update_Forall crm c :
  map_Forall Q (mocks.channels crm) ->
  Q (key (Channel.Owner c) (Channel.ID c)) c ->
  map_Forall Q (mocks.channels (snd (mocks.Update crm c))).
Proof.
  intros Hm Hc. unfold mocks.Update.
  destruct (mocks.channels crm !! _); simpl; [|done].
  by apply map_Forall_insert_2.
Qed.

Lemma Remove_Forall crm owner id :
  map_Forall Q (mocks.channels crm) ->
  map_Forall Q (mocks.channels (snd (mocks.Remove crm owner id))).
Proof. intros Hm. simpl. by apply map_Forall_delete. Qed.

Lemma Connect_Forall (tr : TR) crm owner chanID thingID :
  map_Forall Q (mocks.channels crm) ->
  map_Forall Q (mocks.channels (snd (mocks.Connect tr crm owner chanID thingID))).
Proof.
  intros Hm. unfold mocks.Connect.
  destruct (mocks.One crm owner chanID) as [c|e] eqn:Hc; [|done].
  destruct (thing_One tr owner thingID) as [t|e]; [|done].
  apply Update_Forall; [done|]. apply One_Ok in Hc.
  apply (Q_things (key owner chanID) c). by apply (Hm _ _ Hc).
Qed.

Lemma Disconnect_Forall crm owner chanID thingID :
  map_Forall Q (mocks.channels crm) ->
  map_Forall Q (mocks.channels (snd (mocks.Disconnect crm owner chanID thingID))).
Proof.
  intros Hm. unfold mocks.Disconnect.
  destruct (mocks.One crm owner chanID) as [c|e] eqn:Hc; [|done].
  apply One_Ok in Hc. pose proof (Hm _ _ Hc) as Hq.
  generalize (Channel.Things c). intros ts.
  induction ts as [|t ts IH]; simpl; [done|].
  destruct (String.eqb (Thing.ID t) thingID); [|done].
  apply Update_Forall; [done|]. by apply (Q_things (key owner chanID) c).
Qed.

(** What the oracle identifies satisfies the property. *)
Variable u : string -> option string.
Hypothesis Q_users :
  forall tok owner c, u tok = Some owner -> Channel.Owner c = owner ->
    Q (key owner (Channel.ID c)) c.

Lemma exec_Forall (ts : thingsService TR I) (c : call) :
  users ts = u ->
  map_Forall Q (mocks.channels (channels ts)) ->
  users (exec ts c) = u
  /\ map_Forall Q (mocks.channels (channels (exec ts c))).
Proof.
  intros Hu Hm. destruct c as [k t|k t|k id|k ch|k ch|k id|k cid tid|k cid tid]; simpl.
  - unfold AddThing. destruct (users ts k) eqn:Hk; [|done].
    destruct (idp_ID (idp ts)) as [id i1]. destruct (idp_ID i1) as [dk i2].
    destruct (thing_Save _ _) as [[x|e] tr]; done.
  - unfold UpdateThing. destruct (users ts k) eqn:Hk; [|done].
    destruct (thing_Update _ _) as [e tr]; done.
  - unfold RemoveThing. destruct (users ts k) eqn:Hk; [|done].
    destruct (thing_Remove _ _ _) as [e tr]; done.
  - unfold CreateChannel. destruct (users ts k) as [owner|] eqn:Hk; [|done].
    destruct (idp_ID (idp ts)) as [id i1]. simpl. split; [done|].
    apply map_Forall_insert_2; [|done].
    rewrite Hu in Hk. by apply (Q_users k owner (Channel.with_stamp ch id owner)).
  - unfold UpdateChannel. destruct (users ts k) as [owner|] eqn:Hk; [|done].
    pose proof (Update_Forall (channels ts) (Channel.with_Owner ch owner) Hm) as HU.
    destruct (mocks.Update _ _) as [e crm]. simpl in *. split; [done|].
    apply HU. rewrite Hu in Hk.
    by apply (Q_users k owner (Channel.with_Owner ch owner)).
  - unfold RemoveChannel. destruct (users ts k) as [owner|] eqn:Hk; [|done].
    simpl. split; [done|]. by apply map_Forall_delete.
  - unfold Connect. destruct (users ts k) as [owner|] eqn:Hk; [|done].
    pose proof (Connect_Forall (things ts) (channels ts) owner cid tid Hm) as HC.
    destruct (mocks.Connect _ _ _ _ _) as [e crm]. done.
  - unfold Disconnect. destruct (users ts k) as [owner|] eqn:Hk; [|done].
    pose proof (Disconnect_Forall (channels ts) owner cid tid Hm) as HD.
    destruct (mocks.Disconnect _ _ _ _) as [e crm]. done.
Qed.

Lemma reachable_Forall tr0 i0 (ts : thingsService TR I) :
  reachable u tr0 i0 ts ->
  users ts = u /\ map_Forall Q (mocks.channels (channels ts)).
Proof.
  induction 1 as [|ts c Hr [Hu Hm]].
  - split; [done|]. apply map_Forall_empty.
  - by apply exec_Forall.
Qed.

End Invariants.

Section ReachableStates.
Context {TR I : Type} `{ThingRepository TR} `{IdentityProvider I}.

(** Every reachable channel map is keyed by the owner and ID of its
    entries. *)
Lemma reachable_well_keyed u tr0 i0 (ts : thingsService TR I) :
  reachable u tr0 i0 ts -> well_keyed (mocks.channels (channels ts)).
Proof.
  intros Hr.
  apply (reachable_Forall
           (fun k c => k = key (Channel.Owner c) (Channel.ID c))) in Hr.
  - by destruct Hr.
  - done.
  - by intros tok owner c _ <-.
Qed.

(** When the oracle only identifies owners without the separator, no
    reachable channel map holds another kind of owner. *)
Lemma reachable_owners_plain u tr0 i0 (ts : thingsService TR I) :
  (forall tok owner, u tok = Some owner -> no_sep owner = true) ->
  reachable u tr0 i0 ts -> owners_plain (mocks.channels (channels ts)).
Proof.
  intros Hu Hr.
  apply (reachable_Forall (fun _ c => no_sep (Channel.Owner c) = true)) in Hr.
  - by destruct Hr.
  - done.
  - intros tok owner c Htok ->. by apply (Hu tok).
Qed.

Lemma reachable_users u tr0 i0 (ts : thingsService TR I) :
  reachable u tr0 i0 ts -> users ts = u.
Proof.
  intros Hr. apply (reachable_Forall (fun _ _ => True)) in Hr; [by destruct Hr|done..].
Qed.

End ReachableStates.

(** ** Connect and Disconnect on a well-keyed map *)

Section Connectivity.
Context {TR : Type} `{ThingRepository TR}.

Lemma Connect_hit (tr : TR) crm owner chanID thingID channel thing :
  well_keyed (mocks.channels crm) ->
  mocks.One crm owner chanID = Ok channel ->
  thing_One tr owner thingID = Ok thing ->
  mocks.Connect tr crm owner chanID thingID =
    (None,
     mocks.set_channels crm
       (<[key owner chanID :=
            Channel.with_Things channel (Channel.Things channel ++ [thing])]>
          (mocks.channels crm))).
Proof.
  intros Hwk Hc Ht. unfold mocks.Connect. rewrite Hc, Ht.
  apply One_Ok in Hc. pose proof (Hwk _ _ Hc) as Hkey. simpl in Hkey.
  rewrite (Update_hit _ _ channel); simpl; rewrite <- Hkey; done.
Qed.

Lemma Disconnect_hit crm owner chanID thingID channel t :
  well_keyed (mocks.channels crm) ->
  mocks.One crm owner chanID = Ok channel ->
  t ∈ Channel.Things channel -> Thing.ID t = thingID ->
  mocks.Disconnect crm owner chanID thingID =
    (None,
     mocks.set_channels crm
       (<[key owner chanID :=
            Channel.with_Things channel
              (replicate (length (Channel.Things channel) - 1) Thing.zero
               ++ filter (fun t => Thing.ID t <> thingID)
                    (Channel.Things channel))]>
          (mocks.channels crm))).
Proof.
  intros Hwk Hc Hin Hid. unfold mocks.Disconnect. rewrite Hc.
  rewrite (Disconnect_loop_hit _ _ _ _ t) by done.
  apply One_Ok in Hc. pose proof (Hwk _ _ Hc) as Hkey. simpl in Hkey.
  rewrite Disconnect_connected_eq.
  rewrite (Update_hit _ _ channel); simpl; rewrite <- Hkey; done.
Qed.

Lemma connected_insert crm owner chanID c :
  connected (mocks.set_channels crm (<[key owner chanID := c]> (mocks.channels crm)))
    owner chanID = Channel.Things c.
Proof. unfold connected. simpl. by rewrite lookup_insert_eq. Qed.

End Connectivity.

Lemma reachable_created :
  reachable fixtures.users (∅ : fixtures.thingRepositoryMock)
    (0 : fixtures.identityProviderMock) scenario.created.
Proof.
  apply (reachable_exec _ _ _ _ (CallAddThing "tok-u" scenario.t2_request)).
  apply (reachable_exec _ _ _ _ (CallCreateChannel "tok-u" scenario.c1_request)).
  apply (reachable_exec _ _ _ _ (CallAddThing "tok-u" scenario.t1_request)).
  apply reachable_New.
Qed.

Lemma reachable_connected1 :
  reachable fixtures.users (∅ : fixtures.thingRepositoryMock)
    (0 : fixtures.identityProviderMock) scenario.connected1.
Proof.
  apply (reachable_exec _ _ _ _ (CallConnect "tok-u" scenario.c1_id scenario.t1_id)).
  apply reachable_created.
Qed.

(** ** Membership after Connect *)

(** C5, as the claim states it: in a reachable state a thing would occur
    at most once in a connected set, and Connect on a connected pair would
    add no second occurrence. The owner of the scenario connects the same
    thing to the same channel twice; both calls succeed and the connected
    set holds the thing twice. *)
Lemma Connect_twice_counterexample :
  reachable fixtures.users (∅ : fixtures.thingRepositoryMock)
    (0 : fixtures.identityProviderMock) scenario.connected11
  /\ connected (channels scenario.connected1) "u" scenario.c1_id = [scenario.t1]
  /\ fst (Connect scenario.connected1 "tok-u" scenario.c1_id scenario.t1_id) = None
  /\ connected (channels scenario.connected11) "u" scenario.c1_id
     = [scenario.t1; scenario.t1]
  /\ ~ NoDup (connected (channels scenario.connected11) "u" scenario.c1_id).
Proof.
  assert (Hc : connected (channels scenario.connected11) "u" scenario.c1_id
               = [scenario.t1; scenario.t1]) by (vm_compute; reflexivity).
  split.
  { apply (reachable_exec _ _ _ _ (CallConnect "tok-u" scenario.c1_id scenario.t1_id)).
    apply reachable_connected1. }
  split; [vm_compute; reflexivity|]. split; [vm_compute; reflexivity|].
  split; [exact Hc|]. rewrite Hc. intros Hnd.
  apply NoDup_cons in Hnd as [Hnotin _]. apply Hnotin. by left.
Qed.

(** C5, amended. In every reachable state a successful Connect appends the
    thing to the connected list of the channel, whether or not it is a
    member already: for a channel and a thing found under the owner the
    call succeeds, the list is the former one followed by the thing, and
    the thing occurs once more than before (once when it was no member). *)
Theorem Connect_appends_occurrence {TR I : Type}
    `{ThingRepository TR} `{IdentityProvider I}
    (u : string -> option string) (tr0 : TR) (i0 : I)
    (ts : thingsService TR I) (k owner chanID thingID : string)
    (channel : Channel.t) (thing : Thing.t) :
  reachable u tr0 i0 ts ->
  users ts k = Some owner ->
  mocks.One (channels ts) owner chanID = Ok channel ->
  thing_One (things ts) owner thingID = Ok thing ->
  let after := snd (Connect ts k chanID thingID) in
  fst (Connect ts k chanID thingID) = None
  /\ connected (channels after) owner chanID
     = connected (channels ts) owner chanID ++ [thing]
  /\ count_occ Thing_eq_dec (connected (channels after) owner chanID) thing
     = S (count_occ Thing_eq_dec (connected (channels ts) owner chanID) thing).
Proof.
  intros Hr Hk Hc Ht after. subst after.
  apply reachable_well_keyed in Hr.
  unfold Connect. rewrite Hk, (Connect_hit _ _ _ _ _ channel thing) by done.
  simpl. rewrite connected_insert. simpl.
  rewrite (connected_One ts owner chanID channel Hc).
  split; [done|]. split; [done|].
  rewrite count_occ_app. simpl. destruct (Thing_eq_dec thing thing); [lia|done].
Qed.

Lemma Connect_appends_occurrence_witness :
  users scenario.connected1 "tok-u" = Some "u"
  /\ mocks.One (channels scenario.connected1) "u" scenario.c1_id
     = Ok (Channel.mk scenario.c1_id "u" "room" [] [scenario.t1])
  /\ thing_One (things scenario.connected1) "u" scenario.t1_id = Ok scenario.t1
  /\ connected (channels (snd (Connect scenario.connected1 "tok-u"
                                 scenario.c1_id scenario.t1_id)))
       "u" scenario.c1_id
     = connected (channels scenario.connected1) "u" scenario.c1_id ++ [scenario.t1].
Proof.
  assert (Hk : users scenario.connected1 "tok-u" = Some "u") by reflexivity.
  assert (Hc : mocks.One (channels scenario.connected1) "u" scenario.c1_id
               = Ok (Channel.mk scenario.c1_id "u" "room" [] [scenario.t1]))
    by (vm_compute; reflexivity).
  assert (Ht : thing_One (things scenario.connected1) "u" scenario.t1_id
               = Ok scenario.t1) by (vm_compute; reflexivity).
  split; [exact Hk|]. split; [exact Hc|]. split; [exact Ht|].
  exact (proj1 (proj2 (Connect_appends_occurrence _ _ _ scenario.connected1
                         "tok-u" "u" scenario.c1_id scenario.t1_id _ _
                         reachable_connected1 Hk Hc Ht))).
Defined.

(** ** The data-plane check after Connect and Disconnect *)

Section DataPlane.
Context {TR : Type} `{ThingRepository TR}.

Lemma sole_suffix_insert m owner chanID c :
  sole_suffix m owner chanID ->
  sole_suffix (<[key owner chanID := c]> m) owner chanID.
Proof.
  intros Hsole dbKey c' Hl Hsuf.
  destruct (decide (dbKey = key owner chanID)) as [|Hne]; [done|].
  rewrite lookup_insert_ne in Hl by done. by apply (Hsole dbKey c').
Qed.

(** Over a map whose only key with the suffix is the one just written,
    [HasThing] scans the channel written there, in every order of visit. *)
Lemma HasThing_insert m owner chanID c visit k :
  sole_suffix m owner chanID ->
  mocks.ranges (<[key owner chanID := c]> m) visit ->
  mocks.HasThing visit chanID k = mocks.HasThing_scan (Channel.Things c) k.
Proof.
  intros Hsole Hr. unfold mocks.HasThing.
  apply (HasThing_loop_unique _ _ _ (key owner chanID)).
  - apply (ranges_elem_of _ _ _ _ Hr). by rewrite lookup_insert_eq.
  - apply key_has_suffix.
  - intros dbKey c' Hin Hsuf. apply (ranges_elem_of _ _ _ _ Hr) in Hin.
    pose proof (sole_suffix_insert _ _ _ c Hsole dbKey c' Hin Hsuf) as ->.
    rewrite lookup_insert_eq in Hin. by injection Hin.
Qed.

End DataPlane.

(** C1, as the claim states it: after Connect and Disconnect of the same
    pair CanAccess would fail with NotFound, and after the Connect of a
    freshly created pair it would return the id of the thing. In the
    scenario the calls succeed, CanAccess returns the id of the thing in
    between, and after the Disconnect it fails with UnauthorizedAccess.
    And for a channel created with a connected thing of another id that
    carries the device key of the thing, CanAccess returns that other id
    after the Connect. *)
Lemma CanAccess_after_Disconnect_counterexample :
  (fst (Connect scenario.created "tok-u" scenario.c1_id scenario.t1_id) = None
   /\ CanAccess scenario.connected1 (scenario.visit scenario.connected1)
        scenario.t1_key scenario.c1_id = Ok scenario.t1_id
   /\ fst (Disconnect scenario.connected1 "tok-u" scenario.c1_id scenario.t1_id) = None
   /\ CanAccess scenario.disconnected1 (scenario.visit scenario.disconnected1)
        scenario.t1_key scenario.c1_id = Err ErrUnauthorizedAccess
   /\ CanAccess scenario.disconnected1 (scenario.visit scenario.disconnected1)
        scenario.t1_key scenario.c1_id <> Err ErrNotFound)
  /\ (fst (Connect scenario.seeded "tok-u" scenario.c1_id scenario.t1_id) = None
      /\ CanAccess scenario.seeded_connected
           (scenario.visit scenario.seeded_connected)
           scenario.t1_key scenario.c1_id = Ok "other"
      /\ "other" <> scenario.t1_id).
Proof.
  assert (Hd : CanAccess scenario.disconnected1 (scenario.visit scenario.disconnected1)
                 scenario.t1_key scenario.c1_id = Err ErrUnauthorizedAccess)
    by (vm_compute; reflexivity).
  split.
  - split; [vm_compute; reflexivity|]. split; [vm_compute; reflexivity|].
    split; [vm_compute; reflexivity|]. split; [exact Hd|].
    rewrite Hd. discriminate.
  - split; [vm_compute; reflexivity|]. split; [vm_compute; reflexivity|].
    discriminate.
Qed.

(** C1, amended. In every reachable state, for an owner, a thing [T] the
    thing store holds under the owner and a channel [C] stored under the
    owner, fresh in that its id ends no other key of the map and that no
    thing connected to it has the (non-empty) key of [T]: Connect of the
    pair succeeds, and then CanAccess with the key of [T] returns the id
    of [T]; the following Disconnect of the pair succeeds, and then
    CanAccess with the same key fails with UnauthorizedAccess, the
    HasThing of the store below it reporting NotFound. This holds in
    whatever order the store visits its map. *)
Theorem Connect_CanAccess_Disconnect {TR I : Type}
    `{ThingRepository TR} `{IdentityProvider I}
    (u : string -> option string) (tr0 : TR) (i0 : I)
    (ts : thingsService TR I) (k owner chanID : string)
    (C : Channel.t) (T : Thing.t) :
  reachable u tr0 i0 ts ->
  users ts k = Some owner ->
  mocks.One (channels ts) owner chanID = Ok C ->
  thing_One (things ts) owner (Thing.ID T) = Ok T ->
  Thing.Key T <> EmptyString ->
  (forall t, t ∈ Channel.Things C -> Thing.Key t <> Thing.Key T) ->
  sole_suffix (mocks.channels (channels ts)) owner chanID ->
  let ts1 := snd (Connect ts k chanID (Thing.ID T)) in
  let ts2 := snd (Disconnect ts1 k chanID (Thing.ID T)) in
  fst (Connect ts k chanID (Thing.ID T)) = None
  /\ (forall visit, mocks.ranges (mocks.channels (channels ts1)) visit ->
        CanAccess ts1 visit (Thing.Key T) chanID = Ok (Thing.ID T))
  /\ fst (Disconnect ts1 k chanID (Thing.ID T)) = None
  /\ (forall visit, mocks.ranges (mocks.channels (channels ts2)) visit ->
        mocks.HasThing visit chanID (Thing.Key T) = Err ErrNotFound
        /\ CanAccess ts2 visit (Thing.Key T) chanID = Err ErrUnauthorizedAccess).
Proof.
  intros Hr Hk HC HT Hkey Hfresh Hsole ts1 ts2.
  pose proof (reachable_well_keyed _ _ _ _ Hr) as Hwk.
  set (C1 := Channel.with_Things C (Channel.Things C ++ [T])).
  set (m1 := <[key owner chanID := C1]> (mocks.channels (channels ts))).
  assert (E1 : Connect ts k chanID (Thing.ID T)
               = (None, set_chans ts (mocks.set_channels (channels ts) m1))).
  { unfold Connect. by rewrite Hk, (Connect_hit _ _ _ _ _ C T). }
  assert (Hm1 : mocks.channels (channels ts1) = m1) by (subst ts1; by rewrite E1).
  assert (Hk1 : users ts1 k = Some owner) by (subst ts1; by rewrite E1).
  assert (Hwk1 : well_keyed (mocks.channels (channels ts1))).
  { apply (reachable_well_keyed u tr0 i0).
    apply (reachable_exec _ _ _ _ (CallConnect k chanID (Thing.ID T))), Hr. }
  assert (HC1 : mocks.One (channels ts1) owner chanID = Ok C1).
  { apply One_Ok. rewrite Hm1. apply lookup_insert_eq. }
  set (C2 := Channel.with_Things C1
               (replicate (length (Channel.Things C1) - 1) Thing.zero
                ++ filter (fun t => Thing.ID t <> Thing.ID T) (Channel.Things C1))).
  assert (E2 : Disconnect ts1 k chanID (Thing.ID T)
               = (None, set_chans ts1
                          (mocks.set_channels (channels ts1)
                             (<[key owner chanID := C2]> m1)))).
  { unfold Disconnect. rewrite Hk1, (Disconnect_hit _ _ _ _ C1 T); try done.
    - by rewrite Hm1.
    - simpl. apply elem_of_app. right. by left. }
  split; [by rewrite E1|]. split; [|split; [by rewrite E2|]].
  - intros visit Hv. rewrite Hm1 in Hv. unfold CanAccess.
    rewrite (HasThing_insert _ owner chanID C1) by done.
    simpl. by rewrite HasThing_scan_app.
  - intros visit Hv. subst ts2. rewrite E2 in Hv. simpl in Hv.
    assert (Hmiss : mocks.HasThing visit chanID (Thing.Key T) = Err ErrNotFound).
    { rewrite (HasThing_insert m1 owner chanID C2)
        by (done || by apply sole_suffix_insert).
      apply HasThing_scan_miss. intros t Ht. simpl in Ht.
      apply elem_of_app in Ht as [Hz|Hf].
      - apply elem_of_replicate in Hz as [-> _]. simpl. congruence.
      - apply list_elem_of_filter in Hf as [Hid Hin].
        apply elem_of_app in Hin as [Hin|Hin]; [by apply Hfresh|].
        apply list_elem_of_singleton in Hin. by subst t. }
    split; [done|]. unfold CanAccess. by rewrite Hmiss.
Qed.

Lemma Connect_CanAccess_Disconnect_witness :
  users scenario.created "tok-u" = Some "u"
  /\ mocks.One (channels scenario.created) "u" scenario.c1_id
     = Ok (Channel.mk scenario.c1_id "u" "room" [] [])
  /\ thing_One (things scenario.created) "u" (Thing.ID scenario.t1) = Ok scenario.t1
  /\ Thing.Key scenario.t1 <> EmptyString
  /\ sole_suffix (mocks.channels (channels scenario.created)) "u" scenario.c1_id
  /\ CanAccess scenario.connected1 (scenario.visit scenario.connected1)
       scenario.t1_key scenario.c1_id = Ok scenario.t1_id
  /\ CanAccess scenario.disconnected1 (scenario.visit scenario.disconnected1)
       scenario.t1_key scenario.c1_id = Err ErrUnauthorizedAccess.
Proof.
  assert (Hk : users scenario.created "tok-u" = Some "u") by reflexivity.
  assert (Hc : mocks.One (channels scenario.created) "u" scenario.c1_id
               = Ok (Channel.mk scenario.c1_id "u" "room" [] []))
    by (vm_compute; reflexivity).
  assert (Ht : thing_One (things scenario.created) "u" (Thing.ID scenario.t1)
               = Ok scenario.t1) by (vm_compute; reflexivity).
  assert (Hkey : Thing.Key scenario.t1 <> EmptyString) by discriminate.
  assert (Hfresh : forall t, t ∈ Channel.Things (Channel.mk scenario.c1_id "u" "room" [] [])
                     -> Thing.Key t <> Thing.Key scenario.t1).
  { intros t Hin. apply elem_of_nil in Hin. destruct Hin. }
  assert (Hsole : sole_suffix (mocks.channels (channels scenario.created))
                    "u" scenario.c1_id).
  { assert (Hm : mocks.channels (channels scenario.created)
                 = {[ key "u" scenario.c1_id := Channel.mk scenario.c1_id "u" "room" [] [] ]})
      by (vm_compute; reflexivity).
    rewrite Hm. intros dbKey c Hl _.
    by apply lookup_singleton_Some in Hl as [<- _]. }
  pose proof (Connect_CanAccess_Disconnect _ _ _ scenario.created "tok-u" "u"
                scenario.c1_id _ scenario.t1 reachable_created Hk Hc Ht Hkey
                Hfresh Hsole) as (_ & Hacc & _ & Hden).
  split; [exact Hk|]. split; [exact Hc|]. split; [exact Ht|].
  split; [exact Hkey|]. split; [exact Hsole|]. split.
  - exact (Hacc (scenario.visit scenario.connected1)
             (ranges_map_to_list _)).
  - exact (proj2 (Hden (scenario.visit scenario.disconnected1)
                    (ranges_map_to_list _))).
Defined.

(** ** Listing: what [All] returns *)

Section Listing.
Variable startID : string.

Lemma elem_of_All_collect visit pre first last c :
  c ∈ mocks.All_collect visit pre first last <->
  exists k, (k, c) ∈ visit
            /\ HasPrefix k pre = true
            /\ GoString.ge (Channel.ID c) first = true
            /\ GoString.lt (Channel.ID c) last = true.
Proof.
  induction visit as [|[k v] visit IH]; simpl.
  - split; [by intros ?%elem_of_nil | by intros (? & ?%elem_of_nil & _)].
  - destruct (HasPrefix k pre && GoString.ge (Channel.ID v) first
              && GoString.lt (Channel.ID v) last) eqn:Hcond.
    + rewrite elem_of_cons, IH. split.
      * intros [->|(k' & Hin & Hrest)].
        -- apply andb_true_iff in Hcond as [[Hp Hg]%andb_true_iff Hl].
           exists k. split; [by left|done].
        -- exists k'. split; [by right|done].
      * intros (k' & Hin & Hrest). apply elem_of_cons in Hin as [[= -> ->]|Hin].
        -- by left.
        -- right. by exists k'.
    + rewrite IH. split.
      * intros (k' & Hin & Hrest). exists k'. split; [by right|done].
      * intros (k' & Hin & Hp & Hg & Hl).
        apply elem_of_cons in Hin as [[= -> ->]|Hin].
        -- by rewrite Hp, Hg, Hl in Hcond.
        -- by exists k'.
Qed.

(** Every listed channel was visited under a key with the prefix of the
    owner, and its ID lies between the two bounds. *)
Lemma elem_of_All visit owner offset limit c :
  c ∈ mocks.All startID visit owner offset limit <->
  0 <= offset /\ 0 < limit /\
  exists k, (k, c) ∈ visit
            /\ HasPrefix k (owner +:+ String sep EmptyString) = true
            /\ GoString.ge (Channel.ID c)
                 (startID +:+ Sprintf_012d (int_add offset 1)) = true
            /\ GoString.lt (Channel.ID c)
                 (startID +:+ Sprintf_012d (int_add (int_add offset limit) 1)) = true.
Proof.
  unfold mocks.All.
  destruct (Z.ltb_spec offset 0); simpl.
  { split; [by intros ?%elem_of_nil | lia]. }
  destruct (Z.leb_spec limit 0); simpl.
  { split; [by intros ?%elem_of_nil | lia]. }
  rewrite SliceStable_perm, elem_of_All_collect. split; [|intros (_ & _ & ?)]; eauto.
Qed.

Lemma All_invalid visit owner offset limit :
  offset < 0 \/ limit <= 0 -> mocks.All startID visit owner offset limit = [].
Proof.
  intros Hbad. unfold mocks.All.
  destruct (Z.ltb_spec offset 0); [done|].
  destruct (Z.leb_spec limit 0); [done|lia].
Qed.

Lemma All_ascending visit owner offset limit :
  ascending (mocks.All startID visit owner offset limit).
Proof.
  unfold mocks.All, ascending.
  destruct ((offset <? 0) || (limit <=? 0)); [constructor|].
  apply SliceStable_Sorted. intros a b. apply lt_asym_s.
Qed.

End Listing.

(** ** Owners do not see each other's channels *)



Lemma users_plain_no_sep tok owner :
  scenario2.users_plain tok = Some owner -> no_sep owner = true.
Proof.
  unfold scenario2.users_plain. destruct (fixtures.users tok) as [o|]; [|done].
  destruct (no_sep o) eqn:Ho; [|done]. by intros [= <-].
Qed.

Lemma reachable_created2 :
  reachable scenario2.users_plain (∅ : fixtures.thingRepositoryMock)
    (0 : fixtures.identityProviderMock) scenario2.created.
Proof.
  apply (reachable_exec _ _ _ _
           (CallCreateChannel "tok-w" (Channel.mk EmptyString EmptyString "hall" [] []))).
  apply (reachable_exec _ _ _ _
           (CallCreateChannel "tok-u" (Channel.mk EmptyString EmptyString "room" [] []))).
  apply reachable_New.
Qed.


(** ** Pages: which channels a listing holds *)

Section Pages.
Variable startID : string.

Lemma wrap_small x : is_int x -> wrap x = x.
Proof.
  unfold is_int, wrap. intros Hx.
  rewrite Z.mod_small; [lia|].
  change (2 ^ 64) with (2 ^ 63 + 2 ^ 63). lia.
Qed.

Lemma twelve_digits_int x : 0 <= x < 10 ^ 12 -> is_int x.
Proof.
  unfold is_int. intros Hx.
  assert (10 ^ 12 < 2 ^ 63) by reflexivity. lia.
Qed.

(** Below [10 ^ 12] the bounds of a page are computed without wrap. *)
Lemma page_bounds offset limit :
  0 <= offset -> 0 < limit -> offset + limit + 1 < 10 ^ 12 ->
  int_add offset 1 = offset + 1
  /\ int_add (int_add offset limit) 1 = offset + limit + 1.
Proof.
  intros Ho Hl Hb. unfold int_add.
  rewrite (wrap_small (offset + 1)) by (apply twelve_digits_int; lia).
  rewrite (wrap_small (offset + limit)) by (apply twelve_digits_int; lia).
  rewrite (wrap_small (offset + limit + 1)) by (apply twelve_digits_int; lia).
  done.
Qed.

(** Between identifiers of twelve digits the order of the strings is the
    order of the numbers. *)
Lemma ranked_lt a b :
  0 <= a < 10 ^ 12 -> 0 <= b < 10 ^ 12 ->
  GoString.lt (startID +:+ Sprintf_012d a) (startID +:+ Sprintf_012d b)
  = (a <? b).
Proof.
  intros Ha Hb. unfold GoString.lt, String.ltb.
  rewrite compare_app_prefix, !Sprintf_012d_fixed by done.
  by rewrite (fixed_compare 12).
Qed.

Lemma ranked_inj a b :
  0 <= a < 10 ^ 12 -> 0 <= b < 10 ^ 12 ->
  startID +:+ Sprintf_012d a = startID +:+ Sprintf_012d b -> a = b.
Proof.
  intros Ha Hb Heq. apply (inj (String.app startID)) in Heq.
  rewrite !Sprintf_012d_fixed in Heq by done.
  by apply (fixed_inj 12).
Qed.

(** The identifiers of the channels one visit collects are pairwise
    distinct when the key of a collected channel is determined by its
    ID. *)
Lemma All_collect_NoDup visit pre first last (f : string -> string) :
  NoDup visit.*1 ->
  (forall k c, (k, c) ∈ visit -> HasPrefix k pre = true -> k = f (Channel.ID c)) ->
  NoDup (Channel.ID <$> mocks.All_collect visit pre first last).
Proof.
  induction visit as [|[k v] visit IH]; intros Hnd Hkey; simpl; [constructor|].
  apply NoDup_cons in Hnd as [Hk Hnd].
  assert (IH' : NoDup (Channel.ID <$> mocks.All_collect visit pre first last)).
  { apply IH; [done|]. intros k' c' Hin. apply Hkey. by right. }
  destruct (HasPrefix k pre && GoString.ge (Channel.ID v) first
            && GoString.lt (Channel.ID v) last) eqn:Hcond; [|done].
  rewrite fmap_cons. apply NoDup_cons. split; [|done].
  intros (c' & Hid & (k' & Hin & Hp' & _)%elem_of_All_collect)%list_elem_of_fmap.
  apply andb_true_iff in Hcond as [[Hp _]%andb_true_iff _].
  apply Hk. apply list_elem_of_fmap. exists (k', c'). split; [|done]. simpl.
  rewrite (Hkey k v) by (by left || done).
  rewrite (Hkey k' c') by (by right || done).
  by rewrite Hid.
Qed.

Lemma ranges_NoDup_keys m visit : mocks.ranges m visit -> NoDup visit.*1.
Proof.
  unfold mocks.ranges. intros ->. apply NoDup_fst_map_to_list.
Qed.

End Pages.

(** C4, as the claim states it: for every owner, offset and limit the
    listing would hold exactly the channels of the owner with rank in
    [[offset, offset + limit)], and at most [limit] of them. Three stores
    show otherwise: with the largest limit an [int] holds the upper bound
    wraps around and the channel of rank 0 is not listed; the channel of
    owner [u-v] is listed for owner [u]; and of two stored IDs of which
    one only extends the other both are listed under limit 1. *)
Lemma All_page_counterexample :
  let s := snd (CreateChannel fixtures.fresh "tok-u" scenario.c1_request) in
  let c := Channel.mk scenario.t1_id "u" "room" [] [] in
  let s' := snd (CreateChannel fixtures.fresh "tok-u-v" scenario.c1_request) in
  let c' := Channel.mk scenario.t1_id "u-v" "room" [] [] in
  let d := Channel.mk (scenario.t1_id +:+ "x") "u" "attic" [] [] in
  let crm := snd (mocks.Save (snd (mocks.Save mocks.NewChannelRepository c)) d) in
  (stored (mocks.channels (channels s)) c
   /\ Channel.Owner c = "u"
   /\ has_rank fixtures.startID c 0
   /\ 0 <= 0 < 0 + (2 ^ 63 - 1)
   /\ mocks.All fixtures.startID (scenario.visit s) "u" 0 (2 ^ 63 - 1) = [])
  /\ (mocks.All fixtures.startID (scenario.visit s') "u" 0 10 = [c']
      /\ Channel.Owner c' <> "u")
  /\ (mocks.All fixtures.startID (map_to_list (mocks.channels crm)) "u" 0 1 = [c; d]
      /\ ~ (Z.of_nat (length [c; d]) <= 1)).
Proof.
  cbv zeta. split; [|split].
  - split.
    { exists (key "u" scenario.t1_id). vm_compute. reflexivity. }
    split; [reflexivity|]. split; [vm_compute; reflexivity|].
    split; [done|]. vm_compute. reflexivity.
  - split; [vm_compute; reflexivity | discriminate].
  - split; [vm_compute; reflexivity | simpl; lia].
Qed.

(** C4, amended. For every owner, offset and limit and every order of
    visit, All returns the empty sequence when [offset < 0] or
    [limit <= 0], its result is in ascending order of the IDs, and
    ListChannels with a valid credential returns that result and no error.
    When moreover the map is keyed by owner and ID, the owner asking and
    the owners stored are free of the separator ["-"], every stored ID is
    [startID] followed by a number of twelve digits, and
    [offset + limit + 1 < 10 ^ 12], then the result has at most [limit]
    items and holds exactly the stored channels of the owner whose rank,
    the number in the ID less one, lies in [[offset, offset + limit)]. *)
Theorem All_page {TR I : Type} `{ThingRepository TR} `{IdentityProvider I}
    (startID : string) (m : gmap string Channel.t)
    (visit : list (string * Channel.t)) (owner : string) (offset limit : Z) :
  mocks.ranges m visit ->
  (offset < 0 \/ limit <= 0 -> mocks.All startID visit owner offset limit = [])
  /\ ascending (mocks.All startID visit owner offset limit)
  /\ (forall (ts : thingsService TR I) k, users ts k = Some owner ->
        ListChannels startID ts visit k offset limit
        = Ok (mocks.All startID visit owner offset limit))
  /\ (well_keyed m -> owners_plain m -> ids_ranked startID m ->
      no_sep owner = true ->
      0 <= offset -> 0 < limit -> offset + limit + 1 < 10 ^ 12 ->
      Z.of_nat (length (mocks.All startID visit owner offset limit)) <= limit
      /\ forall c,
           c ∈ mocks.All startID visit owner offset limit <->
           stored m c /\ Channel.Owner c = owner
           /\ exists r, offset <= r < offset + limit /\ has_rank startID c r).
Proof.
  intros Hv.
  split; [apply All_invalid|]. split; [apply All_ascending|]. split.
  { intros ts k Hk. unfold ListChannels. by rewrite Hk. }
  intros Hwk Hop Hids Howner Ho Hl Hb.
  destruct (page_bounds offset limit Ho Hl Hb) as [Efirst Elast].
  assert (Hmem : forall c,
             c ∈ mocks.All startID visit owner offset limit <->
             stored m c /\ Channel.Owner c = owner
             /\ exists r, offset <= r < offset + limit /\ has_rank startID c r).
  { intros c. rewrite elem_of_All, Efirst, Elast. split.
    - intros (_ & _ & dbKey & Hin & Hpre & Hge & Hlt).
      apply (ranges_elem_of _ _ _ _ Hv) in Hin.
      pose proof (Hwk _ _ Hin) as Hkey. pose proof (Hop _ _ Hin) as Hc.
      destruct (Hids _ _ Hin) as (n & Hn & Hid). simpl in Hkey, Hc.
      split; [by exists dbKey|]. split.
      { rewrite Hkey in Hpre. by apply (key_prefix_owner _ _ (Channel.ID c) Hc Howner). }
      unfold GoString.ge in Hge. fold (GoString.lt (Channel.ID c)
        (startID +:+ Sprintf_012d (offset + 1))) in Hge.
      rewrite Hid in Hge, Hlt. rewrite ranked_lt in Hge, Hlt by lia.
      apply negb_true_iff, Z.ltb_ge in Hge. apply Z.ltb_lt in Hlt.
      exists (n - 1). split; [lia|]. unfold has_rank.
      by replace (n - 1 + 1) with n by lia.
    - intros ((dbKey & Hin) & Hown & r & Hr & Hrank).
      split; [done|]. split; [done|]. exists dbKey.
      pose proof (Hwk _ _ Hin) as Hkey. simpl in Hkey.
      split; [by apply (ranges_elem_of _ _ _ _ Hv)|]. split.
      { rewrite Hkey, Hown. apply key_has_prefix. }
      unfold has_rank in Hrank. unfold GoString.ge.
      fold (GoString.lt (Channel.ID c) (startID +:+ Sprintf_012d (offset + 1))).
      rewrite Hrank, !ranked_lt by lia. split.
      + apply negb_true_iff, Z.ltb_ge. lia.
      + apply Z.ltb_lt. lia. }
  split; [|done].
  set (page := (fun n => startID +:+ Sprintf_012d n) <$> seqZ (offset + 1) limit).
  assert (Hlen : (length (Channel.ID <$> mocks.All startID visit owner offset limit)
                  <= length page)%nat).
  { apply submseteq_length, NoDup_submseteq.
    - unfold mocks.All.
      destruct (Z.ltb_spec offset 0); [lia|]. destruct (Z.leb_spec limit 0); [lia|].
      simpl. rewrite SliceStable_perm.
      apply (All_collect_NoDup _ _ _ _ (key owner)); [by apply (ranges_NoDup_keys m)|].
      intros dbKey c Hin%(ranges_elem_of _ _ _ _ Hv) Hpre.
      pose proof (Hwk _ _ Hin) as Hkey. pose proof (Hop _ _ Hin) as Hc.
      simpl in Hkey, Hc. rewrite Hkey in Hpre.
      by rewrite <- (key_prefix_owner _ _ (Channel.ID c) Hc Howner Hpre).
    - intros id (c & -> & Hc)%list_elem_of_fmap.
      apply Hmem in Hc as (_ & _ & r & Hr & Hrank).
      apply list_elem_of_fmap. exists (r + 1). split; [done|].
      apply elem_of_seqZ. lia. }
  subst page. rewrite !length_fmap, length_seqZ in Hlen. lia.
Qed.

Lemma All_page_witness :
  let m := mocks.channels (channels scenario2.created) in
  let visit := scenario2.visit scenario2.created in
  mocks.ranges m visit
  /\ well_keyed m /\ owners_plain m /\ ids_ranked fixtures.startID m
  /\ no_sep "u" = true
  /\ 0 + 10 + 1 < 10 ^ 12
  /\ mocks.All fixtures.startID visit "u" 0 10 = [scenario2.cu]
  /\ Z.of_nat (length (mocks.All fixtures.startID visit "u" 0 10)) <= 10
  /\ (scenario2.cu ∈ mocks.All fixtures.startID visit "u" 0 10 <->
      stored m scenario2.cu /\ Channel.Owner scenario2.cu = "u"
      /\ exists r, 0 <= r < 0 + 10 /\ has_rank fixtures.startID scenario2.cu r).
Proof.
  cbv zeta.
  assert (Hv : mocks.ranges (mocks.channels (channels scenario2.created))
                 (scenario2.visit scenario2.created)) by apply ranges_map_to_list.
  pose proof (reachable_well_keyed _ _ _ _ reachable_created2) as Hwk.
  pose proof (reachable_owners_plain _ _ _ _ users_plain_no_sep reachable_created2)
    as Hop.
  assert (Hids : ids_ranked fixtures.startID
                   (mocks.channels (channels scenario2.created))).
  { assert (Hm : mocks.channels (channels scenario2.created)
                 = <[key "w" scenario2.cw_id := scenario2.cw]>
                     (<[key "u" scenario2.cu_id := scenario2.cu]> ∅))
      by (vm_compute; reflexivity).
    rewrite Hm. unfold ids_ranked.
    apply map_Forall_insert_2; [by exists 2|].
    apply map_Forall_insert_2; [by exists 1|]. apply map_Forall_empty. }
  assert (Hu : no_sep "u" = true) by reflexivity.
  assert (Hb : 0 + 10 + 1 < 10 ^ 12) by reflexivity.
  destruct (All_page (TR := fixtures.thingRepositoryMock)
              (I := fixtures.identityProviderMock) fixtures.startID _ _ "u" 0 10 Hv)
    as (_ & _ & _ & Hpage).
  destruct (Hpage Hwk Hop Hids Hu ltac:(done) ltac:(done) Hb) as [Hlen Hmem].
  split; [exact Hv|]. split; [exact Hwk|]. split; [exact Hop|].
  split; [exact Hids|]. split; [exact Hu|]. split; [exact Hb|].
  split; [vm_compute; reflexivity|]. split; [exact Hlen | exact (Hmem scenario2.cu)].
Defined.

(** ** A page whose upper bound wraps around *)

Section Overflow.
Variable startID : string.

Lemma fixed_head w n :
  exists d rest, 0 <= d < 10 /\ fixed (S w) n = String (digit d) rest.
Proof.
  revert n. induction w as [|w IH]; intros n.
  - exists (n mod 10), EmptyString. split; [by apply Z.mod_pos_bound|done].
  - destruct (IH (n / 10)) as (d & rest & Hd & Heq).
    exists d, (rest +:+ String (digit (n mod 10)) EmptyString).
    split; [done|]. by rewrite fixed_S, Heq.
Qed.

Lemma digit_after_minus d :
  0 <= d < 10 -> Ascii.compare (digit d) "-"%char = Gt.
Proof.
  intros Hd.
  assert (d = 0 \/ d = 1 \/ d = 2 \/ d = 3 \/ d = 4 \/
          d = 5 \/ d = 6 \/ d = 7 \/ d = 8 \/ d = 9)
    as [->|[->|[->|[->|[->|[->|[->|[->|[->| ->]]]]]]]]] by lia;
    reflexivity.
Qed.

(** No twelve-digit identifier lies below the rendering of a negative
    number. *)
Lemma ranked_not_lt_negative n b :
  0 <= n < 10 ^ 12 -> b < 0 ->
  GoString.lt (startID +:+ Sprintf_012d n) (startID +:+ Sprintf_012d b) = false.
Proof.
  intros Hn Hb. unfold GoString.lt, String.ltb.
  rewrite compare_app_prefix, Sprintf_012d_fixed by done.
  destruct (Sprintf_012d_negative b Hb) as [s ->].
  destruct (fixed_head 11 n) as (d & rest & Hd & ->).
  cbn [String.compare]. by rewrite digit_after_minus.
Qed.

Lemma All_collect_none visit pre first last :
  (forall k c, (k, c) ∈ visit -> GoString.lt (Channel.ID c) last = false) ->
  mocks.All_collect visit pre first last = [].
Proof.
  induction visit as [|[k v] visit IH]; intros Hnone; simpl; [done|].
  rewrite (Hnone k v) by (by left). rewrite andb_false_r.
  apply IH. intros k' c' Hin. apply (Hnone k'). by right.
Qed.

(** Whatever [startID] is: when [offset + limit + 1] does not fit an
    [int], the upper bound of the page is the rendering of a negative
    number and the listing of a store of twelve-digit identifiers is
    empty. *)
Lemma All_overflow_empty m visit owner offset limit :
  mocks.ranges m visit -> ids_ranked startID m ->
  is_int offset -> is_int limit -> 0 <= offset -> 0 < limit ->
  2 ^ 63 <= offset + limit + 1 ->
  mocks.All startID visit owner offset limit = [].
Proof.
  intros Hv Hids Hio Hil Ho Hl Hover. unfold mocks.All.
  destruct (Z.ltb_spec offset 0); [lia|]. destruct (Z.leb_spec limit 0); [lia|].
  simpl. rewrite All_collect_none; [done|].
  intros k c Hin%(ranges_elem_of _ _ _ _ Hv).
  destruct (Hids _ _ Hin) as (n & Hn & ->).
  apply ranked_not_lt_negative; [done|].
  unfold is_int in Hio, Hil. unfold int_add, wrap.
  change (2 ^ 64) with 18446744073709551616.
  change (2 ^ 63) with 9223372036854775808 in *.
  Z.div_mod_to_equations. lia.
Qed.

End Overflow.

(** ** Identifiers of one width *)

Lemma app_inj_same_length a b x y :
  String.length x = String.length y ->
  a +:+ x = b +:+ y -> a = b /\ x = y.
Proof.
  intros Hl Heq.
  assert (Hab : String.length a = String.length b).
  { apply (f_equal String.length) in Heq. rewrite !length_app_s in Heq. lia. }
  revert b Hab Heq. induction a as [|c a IH]; intros [|d b] Hab Heq;
    simpl in Hab; try lia.
  - done.
  - rewrite !app_cons in Heq. injection Heq as -> Heq.
    destruct (IH b) as [-> ->]; [lia|done|done].
Qed.

(** In a map keyed by owner and ID whose IDs all have the width of
    [chanID], and where [chanID] is the ID of channels of [owner] only, no
    other key ends with the separator and [chanID]: identifiers of a fixed
    width, given out once, meet the condition under which HasThing finds
    the channel. *)
Lemma sole_suffix_fixed_width (m : gmap string Channel.t) (owner chanID : string) :
  well_keyed m ->
  (forall k c, m !! k = Some c ->
     String.length (Channel.ID c) = String.length chanID) ->
  (forall k c, m !! k = Some c ->
     Channel.ID c = chanID -> Channel.Owner c = owner) ->
  sole_suffix m owner chanID.
Proof.
  intros Hwk Hwidth Hown dbKey c Hl [r Hr]%HasSuffix_spec.
  pose proof (Hwk _ _ Hl) as Hkey. simpl in Hkey.
  rewrite Hkey in Hr. unfold key in Hr.
  destruct (app_inj_same_length (Channel.Owner c) r
              (String sep (Channel.ID c)) (String sep chanID)) as [_ Hid].
  { simpl. f_equal. by apply (Hwidth dbKey). }
  { done. }
  injection Hid as Hid.
  by rewrite Hkey, Hid, (Hown _ _ Hl Hid).
Qed.

(** ** Ascending order, between any two positions *)

Lemma not_lt_le a b : String.ltb b a = false <-> String.le a b.
Proof.
  unfold String.le, String.leb, String.ltb.
  rewrite (String.compare_antisym a b).
  destruct (String.compare b a); simpl; split; done.
Qed.

(** In an ascending listing every channel has an ID at most that of every
    channel after it. *)
Lemma ascending_le (l : list Channel.t) :
  ascending l ->
  StronglySorted (fun a b => String.le (Channel.ID a) (Channel.ID b)) l.
Proof.
  intros Hasc. apply Sorted_StronglySorted.
  - intros a b c Hab Hbc. by etrans.
  - unfold ascending, not_after, GoString.lt in Hasc.
    induction Hasc as [|a l Hs IH Hhd]; constructor; [done|].
    destruct Hhd as [|b l Hab]; constructor. by apply not_lt_le.
Qed.

(** * Further properties of the store, the service and the transport *)

(** ** Update, Remove and Save on the map *)

(** X1. Update succeeds exactly when an entry sits under the key of the
    owner and ID of the channel, and fails with NotFound otherwise; on
    success the channel is what One returns for the pair; in both cases
    the set of keys is the same as before and the entries under the other
    keys are untouched. *)
Theorem Update_outcome (crm : mocks.channelRepositoryMock) (c : Channel.t) :
  let dbKey := key (Channel.Owner c) (Channel.ID c) in
  let after := snd (mocks.Update crm c) in
  (fst (mocks.Update crm c) = None <-> is_Some (mocks.channels crm !! dbKey))
  /\ (fst (mocks.Update crm c) = Some ErrNotFound <-> mocks.channels crm !! dbKey = None)
  /\ (fst (mocks.Update crm c) = None ->
      mocks.One after (Channel.Owner c) (Channel.ID c) = Ok c)
  /\ dom (mocks.channels after) = dom (mocks.channels crm)
  /\ (forall k, k <> dbKey -> mocks.channels after !! k = mocks.channels crm !! k).
Proof.
  intros dbKey after. subst dbKey after. unfold mocks.Update, mocks.One.
  destruct (mocks.channels crm !! key (Channel.Owner c) (Channel.ID c))
    as [old|] eqn:Hl; simpl.
  - split; [split; [by eauto|done]|]. split; [split; done|].
    split; [by rewrite lookup_insert_eq|]. split.
    + rewrite dom_insert_L. apply elem_of_dom_2 in Hl.
      apply subseteq_union_1_L. by apply singleton_subseteq_l.
    + intros k Hk. by rewrite lookup_insert_ne.
  - rewrite Hl. split; [split; [done|intros [x Hx]; discriminate]|]. done.
Qed.

(** X2. After Remove the pair has no entry (One fails with NotFound), the
    entries under the other keys are untouched, no error is reported, and
    a second Remove of the pair changes nothing more. *)
Theorem Remove_outcome (crm : mocks.channelRepositoryMock) (owner id : string) :
  let after := snd (mocks.Remove crm owner id) in
  mocks.One after owner id = Err ErrNotFound
  /\ (forall k, k <> key owner id ->
        mocks.channels after !! k = mocks.channels crm !! k)
  /\ mocks.Remove after owner id = (None, after).
Proof.
  intros after. subst after. unfold mocks.Remove, mocks.One. simpl.
  split; [by rewrite lookup_delete_eq|]. split.
  - intros k Hk. by rewrite lookup_delete_ne.
  - unfold mocks.set_channels. simpl. by rewrite delete_delete_eq.
Qed.

(** X3. Save followed by Remove of the saved pair gives back a store that
    held nothing under the pair; and saving the same channel a second time
    changes nothing. *)
Theorem Save_Remove_restores (crm : mocks.channelRepositoryMock) (c : Channel.t) :
  mocks.channels crm !! key (Channel.Owner c) (Channel.ID c) = None ->
  snd (mocks.Remove (snd (mocks.Save crm c)) (Channel.Owner c) (Channel.ID c)) = crm
  /\ snd (mocks.Save (snd (mocks.Save crm c)) c) = snd (mocks.Save crm c).
Proof.
  intros Hnone. unfold mocks.Remove, mocks.Save, mocks.set_channels. simpl. split.
  - rewrite delete_insert_eq, delete_id by done. by destruct crm.
  - by rewrite insert_insert_eq.
Qed.

Lemma Save_Remove_restores_witness :
  mocks.channels mocks.NewChannelRepository
    !! key (Channel.Owner scenario2.cu) (Channel.ID scenario2.cu) = None
  /\ snd (mocks.Remove (snd (mocks.Save mocks.NewChannelRepository scenario2.cu))
            "u" scenario2.cu_id)
     = mocks.NewChannelRepository.
Proof.
  assert (Hn : mocks.channels mocks.NewChannelRepository
               !! key (Channel.Owner scenario2.cu) (Channel.ID scenario2.cu) = None)
    by reflexivity.
  split; [exact Hn|].
  exact (proj1 (Save_Remove_restores mocks.NewChannelRepository scenario2.cu Hn)).
Defined.

(** ** Connect and Disconnect in general *)

(** X4. In a map keyed by owner and ID, Connect succeeds exactly when the
    channel is found under the owner and the thing store finds the thing
    under the owner; when it fails the store is unchanged; whatever the
    outcome, the entries under other keys are untouched and the channel
    keeps its ID, owner, name and metadata. *)
Theorem Connect_outcome {TR : Type} `{ThingRepository TR}
    (tr : TR) (crm : mocks.channelRepositoryMock) (owner chanID thingID : string) :
  well_keyed (mocks.channels crm) ->
  let after := snd (mocks.Connect tr crm owner chanID thingID) in
  (fst (mocks.Connect tr crm owner chanID thingID) = None <->
     (exists ch, mocks.One crm owner chanID = Ok ch)
     /\ exists t, thing_One tr owner thingID = Ok t)
  /\ (fst (mocks.Connect tr crm owner chanID thingID) <> None -> after = crm)
  /\ (mocks.One crm owner chanID = Err ErrNotFound ->
      fst (mocks.Connect tr crm owner chanID thingID) = Some ErrNotFound)
  /\ (forall k, k <> key owner chanID ->
        mocks.channels after !! k = mocks.channels crm !! k)
  /\ (forall ch ch', mocks.One crm owner chanID = Ok ch ->
        mocks.One after owner chanID = Ok ch' ->
        Channel.ID ch' = Channel.ID ch /\ Channel.Owner ch' = Channel.Owner ch
        /\ Channel.Name ch' = Channel.Name ch
        /\ Channel.Metadata ch' = Channel.Metadata ch).
Proof.
  intros Hwk after. subst after.
  destruct (mocks.One crm owner chanID) as [ch|e] eqn:Hc.
  - destruct (thing_One tr owner thingID) as [t|e] eqn:Ht.
    + rewrite (Connect_hit _ _ _ _ _ ch t) by done. simpl.
      split; [split; [by eauto|done]|]. split; [done|]. split; [done|]. split.
      * intros k Hk. by rewrite lookup_insert_ne.
      * intros ch0 ch' [= <-]. unfold mocks.One. simpl.
        rewrite lookup_insert_eq. by intros [= <-].
    + unfold mocks.Connect. rewrite Hc, Ht. simpl.
      split; [split; [done|by intros [_ [? ?]]]|]. split; [done|]. split; [done|].
      split; [done|]. intros ch0 ch' [= <-]. rewrite Hc. by intros [= <-].
  - unfold mocks.Connect. rewrite Hc. simpl.
    assert (e = ErrNotFound) as ->.
    { unfold mocks.One in Hc. destruct (mocks.channels crm !! _); congruence. }
    split; [split; [done|by intros [[? ?] _]]|]. done.
Qed.

Lemma Connect_outcome_witness :
  well_keyed (mocks.channels (channels scenario.created))
  /\ fst (mocks.Connect (things scenario.created) (channels scenario.created)
            "u" scenario.c1_id scenario.t1_id) = None
  /\ fst (mocks.Connect (things scenario.created) (channels scenario.created)
            "u" scenario.t1_id scenario.t1_id) = Some ErrNotFound.
Proof.
  pose proof (reachable_well_keyed _ _ _ _ reachable_created) as Hwk.
  pose proof (Connect_outcome (things scenario.created) (channels scenario.created)
                "u" scenario.c1_id scenario.t1_id Hwk) as (Hiff & _).
  pose proof (Connect_outcome (things scenario.created) (channels scenario.created)
                "u" scenario.t1_id scenario.t1_id Hwk) as (_ & _ & Hmiss & _).
  split; [exact Hwk|]. split.
  - apply Hiff. split; eexists; vm_compute; reflexivity.
  - apply Hmiss. vm_compute. reflexivity.
Defined.

(** X5. In a map keyed by owner and ID, Disconnect of a thing id that a
    connected thing carries succeeds; the connected list afterwards is one
    zero-valued thing for each former member but one, followed by the
    former members with another id in their order. For a non-empty id no
    thing with the id is left, every member with another id is still
    there, and a second Disconnect of the pair fails with NotFound. *)
Theorem Disconnect_member_outcome
    (crm : mocks.channelRepositoryMock) (owner chanID thingID : string)
    (ch : Channel.t) (t : Thing.t) :
  well_keyed (mocks.channels crm) ->
  mocks.One crm owner chanID = Ok ch ->
  t ∈ Channel.Things ch -> Thing.ID t = thingID ->
  let after := snd (mocks.Disconnect crm owner chanID thingID) in
  fst (mocks.Disconnect crm owner chanID thingID) = None
  /\ connected after owner chanID
     = replicate (length (Channel.Things ch) - 1) Thing.zero
       ++ filter (fun t' => Thing.ID t' <> thingID) (Channel.Things ch)
  /\ (forall t', t' ∈ Channel.Things ch -> Thing.ID t' <> thingID ->
        t' ∈ connected after owner chanID)
  /\ (thingID <> EmptyString ->
      (forall t', t' ∈ connected after owner chanID -> Thing.ID t' <> thingID)
      /\ mocks.Disconnect after owner chanID thingID = (Some ErrNotFound, after)).
Proof.
  intros Hwk Hc Hin Hid after. subst after.
  rewrite (Disconnect_hit _ _ _ _ ch t) by done. simpl.
  rewrite connected_insert. simpl.
  split; [done|]. split; [done|]. split.
  - intros t' Ht' Hne. apply elem_of_app. right.
    by apply list_elem_of_filter.
  - intros Hnonempty.
    assert (Hgone : forall t',
              t' ∈ replicate (length (Channel.Things ch) - 1) Thing.zero
                   ++ filter (fun t' => Thing.ID t' <> thingID) (Channel.Things ch) ->
              Thing.ID t' <> thingID).
    { intros t' [Hz|Hf]%elem_of_app.
      - apply elem_of_replicate in Hz as [-> _]. simpl. congruence.
      - by apply list_elem_of_filter in Hf as [? _]. }
    split; [done|].
    unfold mocks.Disconnect, mocks.One. simpl. rewrite lookup_insert_eq.
    by apply Disconnect_loop_miss.
Qed.

Lemma Disconnect_member_outcome_witness :
  well_keyed (mocks.channels (channels scenario.connected12))
  /\ mocks.One (channels scenario.connected12) "u" scenario.c1_id
     = Ok (Channel.mk scenario.c1_id "u" "room" [] [scenario.t1; scenario.t2])
  /\ scenario.t1 ∈ [scenario.t1; scenario.t2]
  /\ connected (snd (mocks.Disconnect (channels scenario.connected12)
                       "u" scenario.c1_id scenario.t1_id)) "u" scenario.c1_id
     = [Thing.zero; scenario.t2].
Proof.
  assert (Hr : reachable fixtures.users (∅ : fixtures.thingRepositoryMock)
                 (0 : fixtures.identityProviderMock) scenario.connected12).
  { apply (reachable_exec _ _ _ _ (CallConnect "tok-u" scenario.c1_id scenario.t2_id)).
    apply reachable_connected1. }
  pose proof (reachable_well_keyed _ _ _ _ Hr) as Hwk.
  assert (Hc : mocks.One (channels scenario.connected12) "u" scenario.c1_id
               = Ok (Channel.mk scenario.c1_id "u" "room" [] [scenario.t1; scenario.t2]))
    by (vm_compute; reflexivity).
  assert (Hin : scenario.t1 ∈ [scenario.t1; scenario.t2]) by (by left).
  split; [exact Hwk|]. split; [exact Hc|]. split; [exact Hin|].
  exact (proj1 (proj2 (Disconnect_member_outcome _ "u" scenario.c1_id scenario.t1_id
                         _ scenario.t1 Hwk Hc Hin eq_refl))).
Defined.

(** X6. In a map keyed by owner and ID, for a channel none of whose
    connected things carries the id of the thing: Connect followed by
    Disconnect of the pair leaves the former members behind as many
    zero-valued things as there were members; on a channel without
    connected things the two calls give back the store exactly. *)
Theorem Connect_then_Disconnect {TR : Type} `{ThingRepository TR}
    (tr : TR) (crm : mocks.channelRepositoryMock) (owner chanID : string)
    (ch : Channel.t) (T : Thing.t) :
  well_keyed (mocks.channels crm) ->
  mocks.One crm owner chanID = Ok ch ->
  thing_One tr owner (Thing.ID T) = Ok T ->
  (forall t, t ∈ Channel.Things ch -> Thing.ID t <> Thing.ID T) ->
  let mid := snd (mocks.Connect tr crm owner chanID (Thing.ID T)) in
  let after := snd (mocks.Disconnect mid owner chanID (Thing.ID T)) in
  fst (mocks.Disconnect mid owner chanID (Thing.ID T)) = None
  /\ connected after owner chanID
     = replicate (length (Channel.Things ch)) Thing.zero ++ Channel.Things ch
  /\ (Channel.Things ch = [] -> after = crm).
Proof.
  intros Hwk Hc HT Hfresh mid after. subst mid after.
  rewrite (Connect_hit _ _ _ _ _ ch T) by done. simpl.
  set (ch1 := Channel.with_Things ch (Channel.Things ch ++ [T])).
  set (crm1 := mocks.set_channels crm (<[key owner chanID := ch1]> (mocks.channels crm))).
  assert (Hwk1 : well_keyed (mocks.channels crm1)).
  { apply map_Forall_insert_2; [|done]. apply One_Ok in Hc. by apply (Hwk _ _ Hc). }
  assert (Hc1 : mocks.One crm1 owner chanID = Ok ch1).
  { apply One_Ok. apply lookup_insert_eq. }
  rewrite (Disconnect_hit crm1 owner chanID (Thing.ID T) ch1 T); try done.
  2:{ simpl. apply elem_of_app. right. by left. }
  simpl. rewrite connected_insert. simpl.
  assert (Hfilter : filter (fun t' => Thing.ID t' <> Thing.ID T)
                      (Channel.Things ch ++ [T]) = Channel.Things ch).
  { rewrite filter_app, filter_cons_False, filter_nil, app_nil_r by (by intros ?).
    clear -Hfresh. induction (Channel.Things ch) as [|t l IH]; [done|].
    rewrite filter_cons_True by (apply Hfresh; by left).
    f_equal. apply IH. intros t' Ht'. apply Hfresh. by right. }
  rewrite Hfilter, length_app. simpl.
  replace (length (Channel.Things ch) + 1 - 1)%nat
    with (length (Channel.Things ch)) by lia.
  split; [done|]. split; [done|].
  intros Hempty. rewrite Hempty. simpl.
  rewrite insert_insert_eq.
  assert (Channel.with_Things ch1 [] = ch) as ->.
  { subst ch1. destruct ch. simpl in *. by subst. }
  apply One_Ok in Hc. rewrite insert_id by done. by destruct crm.
Qed.

Lemma Connect_then_Disconnect_witness :
  well_keyed (mocks.channels (channels scenario.created))
  /\ mocks.One (channels scenario.created) "u" scenario.c1_id
     = Ok (Channel.mk scenario.c1_id "u" "room" [] [])
  /\ thing_One (things scenario.created) "u" (Thing.ID scenario.t1) = Ok scenario.t1
  /\ snd (mocks.Disconnect
            (snd (mocks.Connect (things scenario.created) (channels scenario.created)
                    "u" scenario.c1_id (Thing.ID scenario.t1)))
            "u" scenario.c1_id (Thing.ID scenario.t1))
     = channels scenario.created.
Proof.
  pose proof (reachable_well_keyed _ _ _ _ reachable_created) as Hwk.
  assert (Hc : mocks.One (channels scenario.created) "u" scenario.c1_id
               = Ok (Channel.mk scenario.c1_id "u" "room" [] []))
    by (vm_compute; reflexivity).
  assert (Ht : thing_One (things scenario.created) "u" (Thing.ID scenario.t1)
               = Ok scenario.t1) by (vm_compute; reflexivity).
  split; [exact Hwk|]. split; [exact Hc|]. split; [exact Ht|].
  refine (proj2 (proj2 (Connect_then_Disconnect (things scenario.created)
                          (channels scenario.created) "u" scenario.c1_id _
                          scenario.t1 Hwk Hc Ht _)) eq_refl).
  intros t Hin. apply elem_of_nil in Hin. destruct Hin.
Defined.

(** ** The membership lookup in general *)

Lemma HasThing_scan_Ok ts k id :
  mocks.HasThing_scan ts k = Ok id ->
  exists t, t ∈ ts /\ Thing.Key t = k /\ Thing.ID t = id.
Proof.
  induction ts as [|t ts IH]; simpl; [done|].
  destruct (String.eqb_spec (Thing.Key t) k) as [Heq|Hne].
  - intros [= <-]. exists t. split; [by left|done].
  - intros (t' & Hin & Hk)%IH. exists t'. split; [by right|done].
Qed.

Lemma HasThing_scan_Err ts k e :
  mocks.HasThing_scan ts k = Err e -> e = ErrNotFound.
Proof.
  induction ts as [|t ts IH]; simpl; [congruence|].
  destruct (String.eqb (Thing.Key t) k); [done|apply IH].
Qed.

Lemma HasThing_loop_cases visit suffix k :
  (mocks.HasThing_loop visit suffix k = Err ErrNotFound
   /\ forall dbKey c, (dbKey, c) ∈ visit -> HasSuffix dbKey suffix = false)
  \/ exists dbKey c, (dbKey, c) ∈ visit /\ HasSuffix dbKey suffix = true
       /\ mocks.HasThing_loop visit suffix k = mocks.HasThing_scan (Channel.Things c) k.
Proof.
  induction visit as [|[dbKey c] visit IH]; simpl.
  - left. split; [done|]. by intros ?? ?%elem_of_nil.
  - destruct (HasSuffix dbKey suffix) eqn:Hs.
    + right. exists dbKey, c. split; [by left|done].
    + destruct IH as [[Herr Hnone]|(dbKey' & c' & Hin & Hs' & Heq)].
      * left. split; [done|]. intros k' c' [[= -> ->]|Hin]%elem_of_cons; [done|].
        by apply (Hnone k' c').
      * right. exists dbKey', c'. split; [by right|done].
Qed.

(** X7. Whatever the order of the visit: when HasThing returns an id, a
    channel stored under a key that ends with the separator and the
    channel id holds a thing with the device key and that id; its only
    error is NotFound, which it returns when no key of the map has the
    suffix; and when the key of one (owner, id) pair alone has the suffix,
    the result is that of scanning the connected things of that channel
    in their order. The owner of the channel plays no part. *)
Theorem HasThing_outcome (m : gmap string Channel.t)
    (visit : list (string * Channel.t)) (chanID k : string) :
  mocks.ranges m visit ->
  (forall id, mocks.HasThing visit chanID k = Ok id ->
     exists dbKey c t, m !! dbKey = Some c
       /\ HasSuffix dbKey (String sep chanID) = true
       /\ t ∈ Channel.Things c /\ Thing.Key t = k /\ Thing.ID t = id)
  /\ (forall e, mocks.HasThing visit chanID k = Err e -> e = ErrNotFound)
  /\ ((forall dbKey c, m !! dbKey = Some c ->
         HasSuffix dbKey (String sep chanID) = false) ->
      mocks.HasThing visit chanID k = Err ErrNotFound)
  /\ (forall owner c, sole_suffix m owner chanID ->
        m !! key owner chanID = Some c ->
        mocks.HasThing visit chanID k = mocks.HasThing_scan (Channel.Things c) k).
Proof.
  intros Hv. unfold mocks.HasThing.
  destruct (HasThing_loop_cases visit (String sep chanID) k)
    as [[Herr Hnone]|(dbKey & c & Hin & Hs & Heq)].
  - rewrite Herr. split; [done|]. split; [congruence|]. split; [done|].
    intros owner c Hsole Hl. apply (ranges_elem_of _ _ _ _ Hv) in Hl.
    pose proof (key_has_suffix owner chanID) as Hs.
    by rewrite (Hnone _ _ Hl) in Hs.
  - rewrite Heq. apply (ranges_elem_of _ _ _ _ Hv) in Hin. split.
    { intros id (t & Ht & Hk & Hid)%HasThing_scan_Ok. by exists dbKey, c, t. }
    split; [apply HasThing_scan_Err|]. split.
    { intros Hnone. by rewrite (Hnone _ _ Hin) in Hs. }
    intros owner c' Hsole Hl. rewrite (Hsole _ _ Hin Hs) in Hin. congruence.
Qed.

Lemma HasThing_outcome_witness :
  mocks.ranges (mocks.channels (channels scenario.connected12))
    (scenario.visit scenario.connected12)
  /\ mocks.HasThing (scenario.visit scenario.connected12) scenario.c1_id scenario.t2_key
     = Ok scenario.t2_id
  /\ exists dbKey c t,
       mocks.channels (channels scenario.connected12) !! dbKey = Some c
       /\ HasSuffix dbKey (String sep scenario.c1_id) = true
       /\ t ∈ Channel.Things c /\ Thing.Key t = scenario.t2_key
       /\ Thing.ID t = scenario.t2_id.
Proof.
  assert (Hv : mocks.ranges (mocks.channels (channels scenario.connected12))
                 (scenario.visit scenario.connected12)) by apply ranges_map_to_list.
  assert (Hok : mocks.HasThing (scenario.visit scenario.connected12)
                  scenario.c1_id scenario.t2_key = Ok scenario.t2_id)
    by (vm_compute; reflexivity).
  split; [exact Hv|]. split; [exact Hok|].
  exact (proj1 (HasThing_outcome _ _ scenario.c1_id scenario.t2_key Hv) _ Hok).
Defined.

(** ** The service: credentials and the two stores *)

(** X8. With a credential the oracle does not identify, every call of the
    management plane fails with UnauthorizedAccess and leaves the service
    as it was: nothing is stored, changed or removed and no identifier is
    drawn. *)
Theorem unidentified_credential_changes_nothing {TR I : Type}
    `{ThingRepository TR} `{IdentityProvider I}
    (startID : string) (ts : thingsService TR I) (k id chanID thingID : string)
    (thing : Thing.t) (channel : Channel.t)
    (visit : list (string * Channel.t)) (offset limit : Z) :
  users ts k = None ->
  AddThing ts k thing = (Err ErrUnauthorizedAccess, ts)
  /\ UpdateThing ts k thing = (Some ErrUnauthorizedAccess, ts)
  /\ ViewThing ts k id = Err ErrUnauthorizedAccess
  /\ ListThings ts k offset limit = Err ErrUnauthorizedAccess
  /\ RemoveThing ts k id = (Some ErrUnauthorizedAccess, ts)
  /\ CreateChannel ts k channel = (Err ErrUnauthorizedAccess, ts)
  /\ UpdateChannel ts k channel = (Some ErrUnauthorizedAccess, ts)
  /\ ViewChannel ts k id = Err ErrUnauthorizedAccess
  /\ ListChannels startID ts visit k offset limit = Err ErrUnauthorizedAccess
  /\ RemoveChannel ts k id = (Some ErrUnauthorizedAccess, ts)
  /\ Connect ts k chanID thingID = (Some ErrUnauthorizedAccess, ts)
  /\ Disconnect ts k chanID thingID = (Some ErrUnauthorizedAccess, ts).
Proof.
  intros Hk.
  unfold AddThing, UpdateThing, ViewThing, ListThings, RemoveThing, CreateChannel,
    UpdateChannel, ViewChannel, ListChannels, RemoveChannel, Connect, Disconnect.
  rewrite Hk. repeat split.
Qed.

Lemma unidentified_credential_changes_nothing_witness :
  users fixtures.fresh "anyone" = None
  /\ CreateChannel fixtures.fresh "anyone" scenario.c1_request
     = (Err ErrUnauthorizedAccess, fixtures.fresh).
Proof.
  assert (Hk : users fixtures.fresh "anyone" = None) by reflexivity.
  split; [exact Hk|].
  exact (proj1 (proj2 (proj2 (proj2 (proj2 (proj2
           (unidentified_credential_changes_nothing fixtures.startID
              fixtures.fresh "anyone" EmptyString EmptyString EmptyString
              Thing.zero scenario.c1_request [] 0 10 Hk))))))).
Defined.

Section Frames.
Context {TR I : Type} `{ThingRepository TR} `{IdentityProvider I}.
Implicit Types ts : thingsService TR I.

Lemma AddThing_channels ts k thing : channels (snd (AddThing ts k thing)) = channels ts.
Proof.
  unfold AddThing. destruct (users ts k); [|done].
  destruct (idp_ID (idp ts)) as [id i1]. destruct (idp_ID i1) as [dk i2].
  by destruct (thing_Save _ _) as [[x|e] tr].
Qed.

Lemma UpdateThing_channels ts k thing :
  channels (snd (UpdateThing ts k thing)) = channels ts.
Proof.
  unfold UpdateThing. destruct (users ts k); [|done].
  by destruct (thing_Update _ _) as [e tr].
Qed.

Lemma RemoveThing_channels ts k id : channels (snd (RemoveThing ts k id)) = channels ts.
Proof.
  unfold RemoveThing. destruct (users ts k); [|done].
  by destruct (thing_Remove _ _ _) as [e tr].
Qed.

End Frames.

(** X9. The calls on things (AddThing, UpdateThing, RemoveThing) never
    change the channel store; the calls on channels (CreateChannel,
    UpdateChannel, RemoveChannel, Connect, Disconnect) never change the
    thing store; only AddThing and CreateChannel advance the identity
    provider. *)
Theorem calls_keep_to_their_store {TR I : Type}
    `{ThingRepository TR} `{IdentityProvider I}
    (ts : thingsService TR I) (k id chanID thingID : string)
    (thing : Thing.t) (channel : Channel.t) :
  (channels (snd (AddThing ts k thing)) = channels ts
   /\ channels (snd (UpdateThing ts k thing)) = channels ts
   /\ channels (snd (RemoveThing ts k id)) = channels ts)
  /\ (things (snd (CreateChannel ts k channel)) = things ts
      /\ things (snd (UpdateChannel ts k channel)) = things ts
      /\ things (snd (RemoveChannel ts k id)) = things ts
      /\ things (snd (Connect ts k chanID thingID)) = things ts
      /\ things (snd (Disconnect ts k chanID thingID)) = things ts)
  /\ (idp (snd (UpdateThing ts k thing)) = idp ts
      /\ idp (snd (RemoveThing ts k id)) = idp ts
      /\ idp (snd (UpdateChannel ts k channel)) = idp ts
      /\ idp (snd (RemoveChannel ts k id)) = idp ts
      /\ idp (snd (Connect ts k chanID thingID)) = idp ts
      /\ idp (snd (Disconnect ts k chanID thingID)) = idp ts).
Proof.
  split; [|split].
  - split; [apply AddThing_channels|].
    split; [apply UpdateThing_channels | apply RemoveThing_channels].
  - unfold CreateChannel, UpdateChannel, RemoveChannel, Connect, Disconnect.
    destruct (users ts k); [|done].
    destruct (idp_ID (idp ts)) as [cid i1].
    destruct (mocks.Update _ _) as [e1 c1].
    destruct (mocks.Connect _ _ _ _ _) as [e2 c2].
    destruct (mocks.Disconnect _ _ _ _) as [e3 c3]. done.
  - unfold UpdateThing, RemoveThing, UpdateChannel, RemoveChannel, Connect, Disconnect.
    destruct (users ts k); [|done].
    destruct (thing_Update _ _) as [e0 t0]. destruct (thing_Remove _ _ _) as [e4 t4].
    destruct (mocks.Update _ _) as [e1 c1].
    destruct (mocks.Connect _ _ _ _ _) as [e2 c2].
    destruct (mocks.Disconnect _ _ _ _) as [e3 c3]. done.
Qed.

(** X10. A thing stays connected when it is changed or removed in the
    thing store: in every reachable state, after a Connect of a thing [T]
    to a channel that is fresh as for the check of access, whatever
    UpdateThing or RemoveThing is called next and whatever it returns,
    CanAccess with the key of [T] still returns the id of [T]. *)
Theorem removed_thing_keeps_access {TR I : Type}
    `{ThingRepository TR} `{IdentityProvider I}
    (u : string -> option string) (tr0 : TR) (i0 : I)
    (ts : thingsService TR I) (k owner chanID : string)
    (C : Channel.t) (T : Thing.t) (k' id' : string) (thing' : Thing.t) :
  reachable u tr0 i0 ts ->
  users ts k = Some owner ->
  mocks.One (channels ts) owner chanID = Ok C ->
  thing_One (things ts) owner (Thing.ID T) = Ok T ->
  (forall t, t ∈ Channel.Things C -> Thing.Key t <> Thing.Key T) ->
  sole_suffix (mocks.channels (channels ts)) owner chanID ->
  let ts1 := snd (Connect ts k chanID (Thing.ID T)) in
  (forall visit,
     mocks.ranges (mocks.channels (channels (snd (RemoveThing ts1 k' id')))) visit ->
     CanAccess (snd (RemoveThing ts1 k' id')) visit (Thing.Key T) chanID
     = Ok (Thing.ID T))
  /\ (forall visit,
        mocks.ranges (mocks.channels (channels (snd (UpdateThing ts1 k' thing')))) visit ->
        CanAccess (snd (UpdateThing ts1 k' thing')) visit (Thing.Key T) chanID
        = Ok (Thing.ID T)).
Proof.
  intros Hr Hk HC HT Hfresh Hsole ts1.
  pose proof (reachable_well_keyed _ _ _ _ Hr) as Hwk.
  assert (Hm1 : mocks.channels (channels ts1)
                = <[key owner chanID :=
                      Channel.with_Things C (Channel.Things C ++ [T])]>
                    (mocks.channels (channels ts))).
  { subst ts1. unfold Connect. by rewrite Hk, (Connect_hit _ _ _ _ _ C T). }
  assert (Hacc : forall visit, mocks.ranges (mocks.channels (channels ts1)) visit ->
                   mocks.HasThing visit chanID (Thing.Key T) = Ok (Thing.ID T)).
  { intros visit Hv. rewrite Hm1 in Hv.
    rewrite (HasThing_insert _ owner chanID _ _ _ Hsole Hv). simpl.
    by rewrite HasThing_scan_app. }
  split; intros visit Hv; unfold CanAccess.
  - rewrite RemoveThing_channels in Hv. by rewrite (Hacc visit Hv).
  - rewrite UpdateThing_channels in Hv. by rewrite (Hacc visit Hv).
Qed.

Lemma removed_thing_keeps_access_witness :
  users scenario.created "tok-u" = Some "u"
  /\ sole_suffix (mocks.channels (channels scenario.created)) "u" scenario.c1_id
  /\ fst (RemoveThing scenario.connected1 "tok-u" scenario.t1_id) = None
  /\ thing_One (things (snd (RemoveThing scenario.connected1 "tok-u" scenario.t1_id)))
       "u" scenario.t1_id = Err ErrNotFound
  /\ CanAccess (snd (RemoveThing scenario.connected1 "tok-u" scenario.t1_id))
       (scenario.visit (snd (RemoveThing scenario.connected1 "tok-u" scenario.t1_id)))
       scenario.t1_key scenario.c1_id = Ok scenario.t1_id.
Proof.
  assert (Hk : users scenario.created "tok-u" = Some "u") by reflexivity.
  assert (Hc : mocks.One (channels scenario.created) "u" scenario.c1_id
               = Ok (Channel.mk scenario.c1_id "u" "room" [] []))
    by (vm_compute; reflexivity).
  assert (Ht : thing_One (things scenario.created) "u" (Thing.ID scenario.t1)
               = Ok scenario.t1) by (vm_compute; reflexivity).
  assert (Hfresh : forall t, t ∈ Channel.Things (Channel.mk scenario.c1_id "u" "room" [] [])
                     -> Thing.Key t <> Thing.Key scenario.t1).
  { intros t Hin. apply elem_of_nil in Hin. destruct Hin. }
  assert (Hsole : sole_suffix (mocks.channels (channels scenario.created))
                    "u" scenario.c1_id).
  { assert (Hm : mocks.channels (channels scenario.created)
                 = {[ key "u" scenario.c1_id := Channel.mk scenario.c1_id "u" "room" [] [] ]})
      by (vm_compute; reflexivity).
    rewrite Hm. intros dbKey c Hl _.
    by apply lookup_singleton_Some in Hl as [<- _]. }
  pose proof (removed_thing_keeps_access _ _ _ scenario.created "tok-u" "u"
                scenario.c1_id _ scenario.t1 "tok-u" scenario.t1_id Thing.zero
                reachable_created Hk Hc Ht Hfresh Hsole) as [Hrem _].
  split; [exact Hk|]. split; [exact Hsole|].
  split; [vm_compute; reflexivity|]. split; [vm_compute; reflexivity|].
  exact (Hrem _ (ranges_map_to_list _)).
Defined.

(** X11. UpdateChannel of a channel the owner has under the id succeeds
    and stores the request with the owner of the credential in place of
    the owner field sent: ViewChannel returns just that, and the connected
    things are those of the request, whatever was connected before; the
    thing store and the identity provider are not touched. Where the key
    of the pair alone ends with the id, the check of access is from then
    on decided by the connected things of the request. *)
Theorem UpdateChannel_installs_request {TR I : Type}
    `{ThingRepository TR} `{IdentityProvider I}
    (ts : thingsService TR I) (k owner : string) (r old : Channel.t) :
  users ts k = Some owner ->
  mocks.channels (channels ts) !! key owner (Channel.ID r) = Some old ->
  let after := snd (UpdateChannel ts k r) in
  fst (UpdateChannel ts k r) = None
  /\ ViewChannel after k (Channel.ID r) = Ok (Channel.with_Owner r owner)
  /\ connected (channels after) owner (Channel.ID r) = Channel.Things r
  /\ things after = things ts /\ idp after = idp ts
  /\ (sole_suffix (mocks.channels (channels ts)) owner (Channel.ID r) ->
      forall visit dk,
        mocks.ranges (mocks.channels (channels after)) visit ->
        mocks.HasThing visit (Channel.ID r) dk
        = mocks.HasThing_scan (Channel.Things r) dk).
Proof.
  intros Hk Hold after. subst after.
  unfold UpdateChannel. rewrite Hk.
  rewrite (Update_hit _ (Channel.with_Owner r owner) old) by done. simpl.
  split; [done|]. split.
  { unfold ViewChannel, mocks.One. simpl. by rewrite Hk, lookup_insert_eq. }
  split.
  { unfold connected. simpl. by rewrite lookup_insert_eq. }
  split; [done|]. split; [done|].
  intros Hsole visit dk Hv.
  by rewrite (HasThing_insert _ owner (Channel.ID r) _ _ _ Hsole Hv).
Qed.

Lemma UpdateChannel_installs_request_witness :
  let r := Channel.mk scenario.c1_id "root" "cellar" []
             [Thing.mk "stranger" "w" "guess" "probe" []] in
  users scenario.connected1 "tok-u" = Some "u"
  /\ mocks.channels (channels scenario.connected1) !! key "u" (Channel.ID r)
     = Some (Channel.mk scenario.c1_id "u" "room" [] [scenario.t1])
  /\ connected (channels (snd (UpdateChannel scenario.connected1 "tok-u" r)))
       "u" scenario.c1_id
     = [Thing.mk "stranger" "w" "guess" "probe" []]
  /\ ViewChannel (snd (UpdateChannel scenario.connected1 "tok-u" r)) "tok-u"
       scenario.c1_id
     = Ok (Channel.mk scenario.c1_id "u" "cellar" []
             [Thing.mk "stranger" "w" "guess" "probe" []]).
Proof.
  cbv zeta.
  set (r := Channel.mk scenario.c1_id "root" "cellar" []
              [Thing.mk "stranger" "w" "guess" "probe" []]).
  assert (Hk : users scenario.connected1 "tok-u" = Some "u") by reflexivity.
  assert (Ho : mocks.channels (channels scenario.connected1) !! key "u" (Channel.ID r)
               = Some (Channel.mk scenario.c1_id "u" "room" [] [scenario.t1]))
    by (vm_compute; reflexivity).
  pose proof (UpdateChannel_installs_request scenario.connected1 "tok-u" "u" r _ Hk Ho)
    as (_ & Hview & Hconn & _).
  split; [exact Hk|]. split; [exact Ho|]. split; [exact Hconn | exact Hview].
Defined.

(** ** One id under two owners *)

Section Frame.
Context {TR : Type} `{ThingRepository TR}.

Lemma key_same_id_inj a b id : key a id = key b id -> a = b.
Proof.
  unfold key. intros Heq.
  by destruct (app_inj_same_length a b (String sep id) (String sep id) eq_refl Heq).
Qed.

Lemma Update_frame crm c k :
  k <> key (Channel.Owner c) (Channel.ID c) ->
  mocks.channels (snd (mocks.Update crm c)) !! k = mocks.channels crm !! k.
Proof.
  intros Hk. unfold mocks.Update.
  destruct (mocks.channels crm !! _); simpl; [|done]. by rewrite lookup_insert_ne.
Qed.

Lemma Connect_frame (tr : TR) crm owner chanID thingID k :
  well_keyed (mocks.channels crm) -> k <> key owner chanID ->
  mocks.channels (snd (mocks.Connect tr crm owner chanID thingID)) !! k
  = mocks.channels crm !! k.
Proof.
  intros Hwk Hk. unfold mocks.Connect.
  destruct (mocks.One crm owner chanID) as [ch|e] eqn:Hc; [|done].
  destruct (thing_One tr owner thingID) as [t|e]; [|done].
  apply Update_frame. simpl. apply One_Ok in Hc.
  by rewrite <- (Hwk _ _ Hc).
Qed.

Lemma Disconnect_frame crm owner chanID thingID k :
  well_keyed (mocks.channels crm) -> k <> key owner chanID ->
  mocks.channels (snd (mocks.Disconnect crm owner chanID thingID)) !! k
  = mocks.channels crm !! k.
Proof.
  intros Hwk Hk. unfold mocks.Disconnect.
  destruct (mocks.One crm owner chanID) as [ch|e] eqn:Hc; [|done].
  apply One_Ok in Hc. pose proof (Hwk _ _ Hc) as Hkey. simpl in Hkey.
  generalize (Channel.Things ch). intros ts.
  induction ts as [|t ts IH]; simpl; [done|].
  destruct (String.eqb (Thing.ID t) thingID); [|done].
  apply Update_frame. simpl. by rewrite <- Hkey.
Qed.

End Frame.

(** X12. In every reachable state no call of one owner that names a
    channel id changes what another owner has stored under the same id:
    after UpdateChannel, RemoveChannel, Connect or Disconnect with the
    credential of owner [B] and the id, One for a different owner [A] and
    that id returns what it returned before; and what ViewChannel returns
    to [B] under the id is never the channel stored for [A] under it. *)
Theorem same_id_other_owner_untouched {TR I : Type}
    `{ThingRepository TR} `{IdentityProvider I}
    (u : string -> option string) (tr0 : TR) (i0 : I)
    (ts : thingsService TR I) (k A B id : string) :
  reachable u tr0 i0 ts ->
  users ts k = Some B ->
  A <> B ->
  (forall r, Channel.ID r = id ->
     mocks.One (channels (snd (UpdateChannel ts k r))) A id
     = mocks.One (channels ts) A id)
  /\ mocks.One (channels (snd (RemoveChannel ts k id))) A id
     = mocks.One (channels ts) A id
  /\ (forall thingID,
        mocks.One (channels (snd (Connect ts k id thingID))) A id
        = mocks.One (channels ts) A id)
  /\ (forall thingID,
        mocks.One (channels (snd (Disconnect ts k id thingID))) A id
        = mocks.One (channels ts) A id)
  /\ (forall cA cB, mocks.One (channels ts) A id = Ok cA ->
        ViewChannel ts k id = Ok cB -> cB <> cA).
Proof.
  intros Hr Hk Hne.
  pose proof (reachable_well_keyed _ _ _ _ Hr) as Hwk.
  assert (Hkey : key A id <> key B id) by (by intros ?%key_same_id_inj).
  unfold UpdateChannel, RemoveChannel, Connect, Disconnect, ViewChannel.
  rewrite Hk. split; [|split; [|split; [|split]]].
  - intros r <-.
    pose proof (Update_frame (channels ts) (Channel.with_Owner r B)
                  (key A (Channel.ID r)) Hkey) as Hf.
    destruct (mocks.Update _ _) as [e crm]. unfold mocks.One. simpl in *. by rewrite Hf.
  - unfold mocks.One. simpl. by rewrite lookup_delete_ne.
  - intros thingID.
    pose proof (Connect_frame (things ts) (channels ts) B id thingID _ Hwk Hkey) as Hf.
    destruct (mocks.Connect _ _ _ _ _) as [e crm]. unfold mocks.One. simpl in *.
    by rewrite Hf.
  - intros thingID.
    pose proof (Disconnect_frame (channels ts) B id thingID _ Hwk Hkey) as Hf.
    destruct (mocks.Disconnect _ _ _ _) as [e crm]. unfold mocks.One. simpl in *.
    by rewrite Hf.
  - intros cA cB HA%One_Ok HB%One_Ok ->.
    apply Hkey. by rewrite (Hwk _ _ HA), (Hwk _ _ HB).
Qed.

Lemma same_id_other_owner_untouched_witness :
  users scenario2.created "tok-w" = Some "w"
  /\ "u" <> "w"
  /\ mocks.One (channels (snd (RemoveChannel scenario2.created "tok-w" scenario2.cu_id)))
       "u" scenario2.cu_id
     = Ok scenario2.cu.
Proof.
  assert (Hk : users scenario2.created "tok-w" = Some "w") by reflexivity.
  assert (Hne : "u" <> "w") by discriminate.
  pose proof (same_id_other_owner_untouched _ _ _ scenario2.created "tok-w" "u" "w"
                scenario2.cu_id reachable_created2 Hk Hne) as (_ & Hrem & _).
  split; [exact Hk|]. split; [exact Hne|].
  rewrite Hrem. vm_compute. reflexivity.
Defined.

(** X13. Removing a channel takes the access away: when the key of the
    pair alone ends with the id of the channel, then after RemoveChannel
    by the owner ViewChannel fails with NotFound, Connect to the id fails
    with NotFound and changes nothing, and CanAccess fails for every
    device key, in whatever order the map is visited. *)
Theorem RemoveChannel_revokes_access {TR I : Type}
    `{ThingRepository TR} `{IdentityProvider I}
    (ts : thingsService TR I) (k owner chanID : string) :
  users ts k = Some owner ->
  sole_suffix (mocks.channels (channels ts)) owner chanID ->
  let after := snd (RemoveChannel ts k chanID) in
  fst (RemoveChannel ts k chanID) = None
  /\ ViewChannel after k chanID = Err ErrNotFound
  /\ (forall thingID, Connect after k chanID thingID = (Some ErrNotFound, after))
  /\ (forall visit dk, mocks.ranges (mocks.channels (channels after)) visit ->
        CanAccess after visit dk chanID = Err ErrUnauthorizedAccess).
Proof.
  intros Hk Hsole after. subst after.
  unfold RemoveChannel. rewrite Hk. simpl.
  split; [done|]. split.
  { unfold ViewChannel, mocks.One. simpl. by rewrite Hk, lookup_delete_eq. }
  split.
  { intros thingID. unfold Connect, mocks.Connect, mocks.One. simpl.
    by rewrite Hk, lookup_delete_eq. }
  intros visit dk Hv. unfold CanAccess, mocks.HasThing.
  destruct (HasThing_loop_cases visit (String sep chanID) dk)
    as [[-> _]|(dbKey & c & Hin & Hs & _)]; [done|].
  apply (ranges_elem_of _ _ _ _ Hv) in Hin.
  apply lookup_delete_Some in Hin as [Hne Hin].
  destruct Hne. symmetry. by apply (Hsole _ _ Hin Hs).
Qed.

Lemma RemoveChannel_revokes_access_witness :
  users scenario.connected1 "tok-u" = Some "u"
  /\ sole_suffix (mocks.channels (channels scenario.connected1)) "u" scenario.c1_id
  /\ CanAccess scenario.connected1 (scenario.visit scenario.connected1)
       scenario.t1_key scenario.c1_id = Ok scenario.t1_id
  /\ CanAccess (snd (RemoveChannel scenario.connected1 "tok-u" scenario.c1_id))
       (scenario.visit (snd (RemoveChannel scenario.connected1 "tok-u" scenario.c1_id)))
       scenario.t1_key scenario.c1_id = Err ErrUnauthorizedAccess.
Proof.
  assert (Hk : users scenario.connected1 "tok-u" = Some "u") by reflexivity.
  assert (Hsole : sole_suffix (mocks.channels (channels scenario.connected1))
                    "u" scenario.c1_id).
  { assert (Hm : mocks.channels (channels scenario.connected1)
                 = {[ key "u" scenario.c1_id :=
                        Channel.mk scenario.c1_id "u" "room" [] [scenario.t1] ]})
      by (vm_compute; reflexivity).
    rewrite Hm. intros dbKey c Hl _.
    by apply lookup_singleton_Some in Hl as [<- _]. }
  pose proof (RemoveChannel_revokes_access scenario.connected1 "tok-u" "u"
                scenario.c1_id Hk Hsole) as (_ & _ & _ & Hacc).
  split; [exact Hk|]. split; [exact Hsole|]. split; [vm_compute; reflexivity|].
  exact (Hacc _ scenario.t1_key (ranges_map_to_list _)).
Defined.

(** ** What every reachable state keeps *)

(** X14. In every state the service reaches from an empty channel store,
    the oracle is the one it was given, every stored channel sits under
    the key composed of its own owner and ID, and the owner of every
    stored channel is an identity the oracle gives for some credential:
    no call stores a channel for an owner that no credential resolves
    to. *)
Theorem reachable_channels_keyed_and_owned {TR I : Type}
    `{ThingRepository TR} `{IdentityProvider I}
    (u : string -> option string) (tr0 : TR) (i0 : I) (ts : thingsService TR I) :
  reachable u tr0 i0 ts ->
  users ts = u
  /\ (forall dbKey c, mocks.channels (channels ts) !! dbKey = Some c ->
        dbKey = key (Channel.Owner c) (Channel.ID c))
  /\ (forall c, stored (mocks.channels (channels ts)) c ->
        exists token, u token = Some (Channel.Owner c)).
Proof.
  intros Hr. split; [by apply (reachable_users _ _ _ _ Hr)|]. split.
  - intros dbKey c Hl. by apply (reachable_well_keyed _ _ _ _ Hr _ _ Hl).
  - intros c [dbKey Hl].
    apply (reachable_Forall
             (fun _ c => exists token, u token = Some (Channel.Owner c))) in Hr.
    + destruct Hr as [_ Hall]. by apply (Hall _ _ Hl).
    + done.
    + intros tok owner c' Htok <-. by exists tok.
Qed.

Lemma reachable_channels_keyed_and_owned_witness :
  reachable fixtures.users (∅ : fixtures.thingRepositoryMock)
    (0 : fixtures.identityProviderMock) scenario.connected1
  /\ forall c, stored (mocks.channels (channels scenario.connected1)) c ->
       exists token, fixtures.users token = Some (Channel.Owner c).
Proof.
  split; [exact reachable_connected1|].
  exact (proj2 (proj2 (reachable_channels_keyed_and_owned _ _ _ _ reachable_connected1))).
Defined.

(** X15. When the oracle only identifies owners without the separator,
    then in every reachable state whatever ListChannels shows an owner can
    be fetched by ViewChannel with the same credential under its id and
    comes back unchanged, and whatever ViewChannel returns carries the id
    that was asked for and the owner of the credential. *)
Theorem listed_channels_can_be_viewed {TR I : Type}
    `{ThingRepository TR} `{IdentityProvider I}
    (startID : string) (u : string -> option string) (tr0 : TR) (i0 : I)
    (ts : thingsService TR I) (k owner : string) :
  (forall tok o, u tok = Some o -> no_sep o = true) ->
  reachable u tr0 i0 ts ->
  users ts k = Some owner ->
  (forall visit offset limit l c,
     mocks.ranges (mocks.channels (channels ts)) visit ->
     ListChannels startID ts visit k offset limit = Ok l -> c ∈ l ->
     ViewChannel ts k (Channel.ID c) = Ok c)
  /\ (forall id c, ViewChannel ts k id = Ok c ->
        Channel.ID c = id /\ Channel.Owner c = owner).
Proof.
  intros Hplain Hr Hk.
  pose proof (reachable_well_keyed _ _ _ _ Hr) as Hwk.
  pose proof (reachable_owners_plain _ _ _ _ Hplain Hr) as Hop.
  assert (Ho : no_sep owner = true).
  { apply (Hplain k). by rewrite <- (reachable_users _ _ _ _ Hr). }
  unfold ListChannels, ViewChannel. rewrite Hk. split.
  - intros visit offset limit l c Hv [= <-] (_ & _ & dbKey & Hin & Hpre & _)%elem_of_All.
    apply (ranges_elem_of _ _ _ _ Hv) in Hin.
    pose proof (Hwk _ _ Hin) as Hkey. pose proof (Hop _ _ Hin) as Hc.
    simpl in Hkey, Hc. rewrite Hkey in Hpre.
    pose proof (key_prefix_owner _ _ (Channel.ID c) Hc Ho Hpre) as Hown.
    apply One_Ok. by rewrite <- Hown, <- Hkey.
  - intros id c Hin%One_Ok.
    pose proof (Hwk _ _ Hin) as Hkey. pose proof (Hop _ _ Hin) as Hc.
    simpl in Hkey, Hc.
    by destruct (key_inj _ _ _ _ Ho Hc Hkey) as [-> ->].
Qed.

Lemma listed_channels_can_be_viewed_witness :
  (forall tok o, scenario2.users_plain tok = Some o -> no_sep o = true)
  /\ users scenario2.created "tok-w" = Some "w"
  /\ ListChannels fixtures.startID scenario2.created
       (scenario2.visit scenario2.created) "tok-w" 0 10 = Ok [scenario2.cw]
  /\ ViewChannel scenario2.created "tok-w" (Channel.ID scenario2.cw) = Ok scenario2.cw.
Proof.
  assert (Hk : users scenario2.created "tok-w" = Some "w") by reflexivity.
  assert (Hl : ListChannels fixtures.startID scenario2.created
                 (scenario2.visit scenario2.created) "tok-w" 0 10 = Ok [scenario2.cw])
    by (vm_compute; reflexivity).
  split; [exact users_plain_no_sep|]. split; [exact Hk|]. split; [exact Hl|].
  refine (proj1 (listed_channels_can_be_viewed fixtures.startID _ _ _
                   scenario2.created "tok-w" "w" users_plain_no_sep
                   reachable_created2 Hk) _ 0 10 _ scenario2.cw
            (ranges_map_to_list _) Hl _).
  by left.
Defined.

(** ** Listings: the order of the visit, and pages side by side *)

Section Listings.
Variable startID : string.

Lemma All_collect_perm v1 v2 pre first last :
  v1 ≡ₚ v2 ->
  mocks.All_collect v1 pre first last ≡ₚ mocks.All_collect v2 pre first last.
Proof.
  induction 1 as [|[k c] v1 v2 Hp IH|[k c] [k' c'] v|v1 v2 v3 _ IH1 _ IH2]; simpl.
  - done.
  - destruct (_ && _ && _); by rewrite IH.
  - destruct (HasPrefix k pre && _ && _), (HasPrefix k' pre && _ && _);
      try done. apply Permutation_swap.
  - by etrans.
Qed.

Lemma ltb_le a b : String.ltb a b = true -> String.le a b.
Proof.
  unfold String.le, String.leb, String.ltb. by destruct (String.compare a b).
Qed.

(** Two ascending lists with the same items, in which an ID names one
    item, are the same list. *)
Lemma ascending_unique (l1 l2 : list Channel.t) :
  (forall a b, a ∈ l1 -> b ∈ l2 -> Channel.ID a = Channel.ID b -> a = b) ->
  StronglySorted (fun a b => String.le (Channel.ID a) (Channel.ID b)) l1 ->
  StronglySorted (fun a b => String.le (Channel.ID a) (Channel.ID b)) l2 ->
  l1 ≡ₚ l2 -> l1 = l2.
Proof.
  intros Hid. apply StronglySorted_unique_strong.
  intros a b Ha Hb Hab Hba. apply Hid; [done..|]. by apply (anti_symm String.le).
Qed.

(** In a map keyed by owner and ID with separator-free owners, a listed
    channel is the entry of the owner under its ID. *)
Lemma All_listed_entry m visit owner offset limit c :
  mocks.ranges m visit -> well_keyed m -> owners_plain m -> no_sep owner = true ->
  c ∈ mocks.All startID visit owner offset limit ->
  m !! key owner (Channel.ID c) = Some c.
Proof.
  intros Hv Hwk Hop Ho (_ & _ & dbKey & Hin & Hpre & _)%elem_of_All.
  apply (ranges_elem_of _ _ _ _ Hv) in Hin.
  pose proof (Hwk _ _ Hin) as Hkey. pose proof (Hop _ _ Hin) as Hc.
  simpl in Hkey, Hc. rewrite Hkey in Hpre.
  pose proof (key_prefix_owner _ _ (Channel.ID c) Hc Ho Hpre) as Hown.
  by rewrite <- Hown, <- Hkey.
Qed.

Lemma All_NoDup m visit owner offset limit :
  mocks.ranges m visit -> well_keyed m -> owners_plain m -> no_sep owner = true ->
  NoDup (mocks.All startID visit owner offset limit).
Proof.
  intros Hv Hwk Hop Ho. apply (NoDup_fmap_1 Channel.ID). unfold mocks.All.
  destruct ((offset <? 0) || (limit <=? 0)); [constructor|].
  rewrite SliceStable_perm.
  apply (All_collect_NoDup _ _ _ _ (key owner)); [by apply (ranges_NoDup_keys m)|].
  intros dbKey c Hin%(ranges_elem_of _ _ _ _ Hv) Hpre.
  pose proof (Hwk _ _ Hin) as Hkey. pose proof (Hop _ _ Hin) as Hc.
  simpl in Hkey, Hc. rewrite Hkey in Hpre.
  by rewrite <- (key_prefix_owner _ _ (Channel.ID c) Hc Ho Hpre).
Qed.

(** Which channels a page holds, in the domain of the twelve digits. *)
Lemma All_members m visit owner offset limit c :
  mocks.ranges m visit -> well_keyed m -> owners_plain m ->
  ids_ranked startID m -> no_sep owner = true ->
  0 <= offset -> 0 < limit -> offset + limit + 1 < 10 ^ 12 ->
  c ∈ mocks.All startID visit owner offset limit <->
  stored m c /\ Channel.Owner c = owner
  /\ exists r, offset <= r < offset + limit /\ has_rank startID c r.
Proof.
  intros Hv Hwk Hop Hids Howner Ho Hl Hb.
  destruct (page_bounds offset limit Ho Hl Hb) as [Efirst Elast].
  rewrite elem_of_All, Efirst, Elast. split.
  - intros (_ & _ & dbKey & Hin & Hpre & Hge & Hlt).
    apply (ranges_elem_of _ _ _ _ Hv) in Hin.
    pose proof (Hwk _ _ Hin) as Hkey. pose proof (Hop _ _ Hin) as Hc.
    destruct (Hids _ _ Hin) as (n & Hn & Hid). simpl in Hkey, Hc.
    split; [by exists dbKey|]. split.
    { rewrite Hkey in Hpre. by apply (key_prefix_owner _ _ (Channel.ID c) Hc Howner). }
    unfold GoString.ge in Hge. fold (GoString.lt (Channel.ID c)
      (startID +:+ Sprintf_012d (offset + 1))) in Hge.
    rewrite Hid in Hge, Hlt. rewrite ranked_lt in Hge, Hlt by lia.
    apply negb_true_iff, Z.ltb_ge in Hge. apply Z.ltb_lt in Hlt.
    exists (n - 1). split; [lia|]. unfold has_rank.
    by replace (n - 1 + 1) with n by lia.
  - intros ((dbKey & Hin) & Hown & r & Hr & Hrank).
    split; [done|]. split; [done|]. exists dbKey.
    pose proof (Hwk _ _ Hin) as Hkey. simpl in Hkey.
    split; [by apply (ranges_elem_of _ _ _ _ Hv)|]. split.
    { rewrite Hkey, Hown. apply key_has_prefix. }
    unfold has_rank in Hrank. unfold GoString.ge.
    fold (GoString.lt (Channel.ID c) (startID +:+ Sprintf_012d (offset + 1))).
    rewrite Hrank, !ranked_lt by lia. split.
    + apply negb_true_iff, Z.ltb_ge. lia.
    + apply Z.ltb_lt. lia.
Qed.

End Listings.

(** X16. In a map keyed by owner and ID with separator-free owners the
    listing does not depend on the order in which the map is visited: two
    calls of All with the same owner, offset and limit return the same
    sequence. *)
Theorem All_same_in_every_order (startID : string) (m : gmap string Channel.t)
    (visit1 visit2 : list (string * Channel.t)) (owner : string) (offset limit : Z) :
  well_keyed m -> owners_plain m -> no_sep owner = true ->
  mocks.ranges m visit1 -> mocks.ranges m visit2 ->
  mocks.All startID visit1 owner offset limit
  = mocks.All startID visit2 owner offset limit.
Proof.
  intros Hwk Hop Ho Hv1 Hv2. apply ascending_unique.
  - intros a b Ha Hb Hid.
    apply (All_listed_entry _ m) in Ha; [|done..].
    apply (All_listed_entry _ m) in Hb; [|done..].
    rewrite Hid in Ha. congruence.
  - apply ascending_le, All_ascending.
  - apply ascending_le, All_ascending.
  - unfold mocks.All. destruct ((offset <? 0) || (limit <=? 0)); [done|].
    rewrite !SliceStable_perm. apply All_collect_perm.
    unfold mocks.ranges in Hv1, Hv2. by rewrite Hv1, Hv2.
Qed.

Lemma All_same_in_every_order_witness :
  let m := mocks.channels (channels scenario2.created) in
  well_keyed m /\ owners_plain m /\ no_sep "u" = true
  /\ mocks.ranges m (reverse (map_to_list m))
  /\ mocks.All fixtures.startID (map_to_list m) "u" 0 10
     = mocks.All fixtures.startID (reverse (map_to_list m)) "u" 0 10.
Proof.
  cbv zeta.
  pose proof (reachable_well_keyed _ _ _ _ reachable_created2) as Hwk.
  pose proof (reachable_owners_plain _ _ _ _ users_plain_no_sep reachable_created2)
    as Hop.
  assert (Hu : no_sep "u" = true) by reflexivity.
  assert (Hv2 : mocks.ranges (mocks.channels (channels scenario2.created))
                  (reverse (map_to_list (mocks.channels (channels scenario2.created))))).
  { unfold mocks.ranges. apply reverse_Permutation. }
  split; [exact Hwk|]. split; [exact Hop|]. split; [exact Hu|]. split; [exact Hv2|].
  exact (All_same_in_every_order fixtures.startID _ _ _ "u" 0 10 Hwk Hop Hu
           (ranges_map_to_list _) Hv2).
Defined.

(** X17. Pages side by side: in a map keyed by owner and ID, with
    separator-free owners and twelve-digit IDs, the page of [limit1]
    channels at [offset] followed by the page of [limit2] channels at
    [offset + limit1] is the page of [limit1 + limit2] channels at
    [offset], as long as the upper bound stays below [10 ^ 12]: no channel
    is lost or repeated between two pages. *)
Theorem All_pages_concatenate (startID : string) (m : gmap string Channel.t)
    (visit : list (string * Channel.t)) (owner : string) (offset limit1 limit2 : Z) :
  mocks.ranges m visit -> well_keyed m -> owners_plain m ->
  ids_ranked startID m -> no_sep owner = true ->
  0 <= offset -> 0 < limit1 -> 0 < limit2 ->
  offset + limit1 + limit2 + 1 < 10 ^ 12 ->
  mocks.All startID visit owner offset limit1
  ++ mocks.All startID visit owner (offset + limit1) limit2
  = mocks.All startID visit owner offset (limit1 + limit2).
Proof.
  intros Hv Hwk Hop Hids Howner Ho Hl1 Hl2 Hb.
  assert (Hm1 := fun c => All_members startID m visit owner offset limit1 c
                            Hv Hwk Hop Hids Howner Ho Hl1 ltac:(lia)).
  assert (Hm2 := fun c => All_members startID m visit owner (offset + limit1) limit2 c
                            Hv Hwk Hop Hids Howner ltac:(lia) Hl2 ltac:(lia)).
  assert (Hm := fun c => All_members startID m visit owner offset (limit1 + limit2) c
                           Hv Hwk Hop Hids Howner Ho ltac:(lia) ltac:(lia)).
  assert (Hrank : forall c r r', stored m c -> has_rank startID c r ->
                    has_rank startID c r' -> 0 <= r -> 0 <= r' ->
                    r + 1 < 10 ^ 12 -> r' + 1 < 10 ^ 12 -> r = r').
  { intros c r r' _ Hr Hr' ????. unfold has_rank in Hr, Hr'. rewrite Hr in Hr'.
    apply ranked_inj in Hr'; lia. }
  apply ascending_unique.
  - intros a b Ha Hb' Hid.
    assert (Hsa : m !! key owner (Channel.ID a) = Some a).
    { apply elem_of_app in Ha as [Ha|Ha];
        by apply (All_listed_entry startID m visit owner _ _ a Hv Hwk Hop Howner) in Ha. }
    apply (All_listed_entry startID m visit owner _ _ b Hv Hwk Hop Howner) in Hb'.
    rewrite Hid in Hsa. congruence.
  - apply StronglySorted_app_2; [|apply ascending_le, All_ascending..].
    intros x1 x2 (_ & _ & r1 & Hr1 & Hk1)%Hm1 (_ & _ & r2 & Hr2 & Hk2)%Hm2.
    apply ltb_le. unfold has_rank in Hk1, Hk2. rewrite Hk1, Hk2.
    fold (GoString.lt (startID +:+ Sprintf_012d (r1 + 1))
            (startID +:+ Sprintf_012d (r2 + 1))).
    rewrite ranked_lt by lia. apply Z.ltb_lt. lia.
  - apply ascending_le, All_ascending.
  - apply NoDup_Permutation.
    + apply NoDup_app. split; [by apply (All_NoDup startID m)|]. split.
      * intros c (Hs & _ & r1 & Hr1 & Hk1)%Hm1 (_ & _ & r2 & Hr2 & Hk2)%Hm2.
        pose proof (Hrank c r1 r2 Hs Hk1 Hk2). lia.
      * by apply (All_NoDup startID m).
    + by apply (All_NoDup startID m).
    + intros c. rewrite elem_of_app, Hm1, Hm2, Hm. split.
      * intros [(Hs & Hown & r & Hr & Hk)|(Hs & Hown & r & Hr & Hk)];
          (split; [done|]; split; [done|]; exists r; split; [lia|done]).
      * intros (Hs & Hown & r & Hr & Hk).
        destruct (Z.lt_ge_cases r (offset + limit1)).
        -- left. split; [done|]. split; [done|]. exists r. split; [lia|done].
        -- right. split; [done|]. split; [done|]. exists r. split; [lia|done].
Qed.

Lemma reachable_created3 :
  reachable scenario2.users_plain (∅ : fixtures.thingRepositoryMock)
    (0 : fixtures.identityProviderMock) scenario3.created.
Proof.
  apply (reachable_exec _ _ _ _
           (CallCreateChannel "tok-u" (Channel.mk EmptyString EmptyString "c" [] []))).
  apply (reachable_exec _ _ _ _
           (CallCreateChannel "tok-u" (Channel.mk EmptyString EmptyString "b" [] []))).
  apply (reachable_exec _ _ _ _
           (CallCreateChannel "tok-u" (Channel.mk EmptyString EmptyString "a" [] []))).
  apply reachable_New.
Qed.

Lemma ids_ranked_created3 :
  ids_ranked fixtures.startID (mocks.channels (channels scenario3.created)).
Proof.
  assert (Hm : mocks.channels (channels scenario3.created)
               = <[key "u" (Channel.ID scenario3.c3) := scenario3.c3]>
                   (<[key "u" (Channel.ID scenario3.c2) := scenario3.c2]>
                      (<[key "u" (Channel.ID scenario3.c1) := scenario3.c1]> ∅)))
    by (vm_compute; reflexivity).
  rewrite Hm. unfold ids_ranked.
  apply map_Forall_insert_2; [exists 3; split; [done|reflexivity]|].
  apply map_Forall_insert_2; [exists 2; split; [done|reflexivity]|].
  apply map_Forall_insert_2; [exists 1; split; [done|reflexivity]|].
  apply map_Forall_empty.
Qed.

Lemma All_pages_concatenate_witness :
  let m := mocks.channels (channels scenario3.created) in
  mocks.ranges m scenario3.visit
  /\ well_keyed m /\ owners_plain m /\ ids_ranked fixtures.startID m
  /\ no_sep "u" = true
  /\ 0 + 1 + 2 + 1 < 10 ^ 12
  /\ mocks.All fixtures.startID scenario3.visit "u" 0 1 = [scenario3.c1]
  /\ mocks.All fixtures.startID scenario3.visit "u" (0 + 1) 2
     = [scenario3.c2; scenario3.c3]
  /\ mocks.All fixtures.startID scenario3.visit "u" 0 1
     ++ mocks.All fixtures.startID scenario3.visit "u" (0 + 1) 2
     = mocks.All fixtures.startID scenario3.visit "u" 0 (1 + 2).
Proof.
  cbv zeta.
  assert (Hv : mocks.ranges (mocks.channels (channels scenario3.created))
                 scenario3.visit) by apply ranges_map_to_list.
  pose proof (reachable_well_keyed _ _ _ _ reachable_created3) as Hwk.
  pose proof (reachable_owners_plain _ _ _ _ users_plain_no_sep reachable_created3)
    as Hop.
  assert (Hu : no_sep "u" = true) by reflexivity.
  assert (Hb : 0 + 1 + 2 + 1 < 10 ^ 12) by reflexivity.
  split; [exact Hv|]. split; [exact Hwk|]. split; [exact Hop|].
  split; [exact ids_ranked_created3|]. split; [exact Hu|]. split; [exact Hb|].
  split; [vm_compute; reflexivity|]. split; [vm_compute; reflexivity|].
  exact (All_pages_concatenate fixtures.startID _ _ "u" 0 1 2 Hv Hwk Hop
           ids_ranked_created3 Hu ltac:(done) ltac:(done) ltac:(done) Hb).
Defined.

(** ** The transport: status codes *)

(** X18. On a writer that has sent nothing, encodeError sets the content
    type to [application/json] and writes one status between 400 and 500;
    the status is 500 exactly for an error the transport does not know,
    403 exactly for UnauthorizedAccess, 404 exactly for NotFound, 409
    exactly for Conflict and 415 exactly for an unsupported content type;
    every other error it knows is answered with 400. *)
Theorem encodeError_status (err : transport.goerror) :
  let w := transport.encodeError err transport.NewWriter in
  transport.header w !! "Content-Type" = Some "application/json"
  /\ (exists code, transport.status w = Some code /\ 400 <= code <= 500)
  /\ (transport.status w = Some 500 <-> exists msg, err = transport.OtherError msg)
  /\ (transport.status w = Some 403 <->
      err = transport.ThingsError ErrUnauthorizedAccess)
  /\ (transport.status w = Some 404 <-> err = transport.ThingsError ErrNotFound)
  /\ (transport.status w = Some 409 <-> err = transport.ThingsError ErrConflict)
  /\ (transport.status w = Some 415 <-> err = transport.errUnsupportedContentType)
  /\ (transport.status w = Some 400 <->
      err <> transport.ThingsError ErrUnauthorizedAccess
      /\ err <> transport.ThingsError ErrNotFound
      /\ err <> transport.ThingsError ErrConflict
      /\ err <> transport.errUnsupportedContentType
      /\ forall msg, err <> transport.OtherError msg).
Proof.
  intros w. subst w.
  unfold transport.encodeError, transport.WriteHeader, transport.Header_Set,
    transport.contentType, transport.StatusBadRequest, transport.StatusForbidden,
    transport.StatusNotFound, transport.StatusConflict,
    transport.StatusUnsupportedMediaType, transport.StatusInternalServerError.
  split; [by destruct err as [[]| | | | | | |]|].
  split; [destruct err as [[]| | | | | | |]; simpl; eexists; (split; [reflexivity|lia])|].
  destruct err as [[]| | | | | | |]; simpl;
    repeat split; try discriminate; try congruence; eauto;
    try (intros [msg' Hm]; discriminate);
    try (intros (? & ? & ? & ? & Hm); by (congruence || destruct (Hm msg))).
Qed.

(** ** The transport: the parameters of a listing *)

Section AtoiFacts.

Lemma Atoi_is_int s n : strconv.Atoi s = Some n -> is_int n.
Proof.
  unfold strconv.Atoi, is_int.
  destruct (match s with
            | String "-"%char rest => (true, rest)
            | String "+"%char rest => (false, rest)
            | _ => (false, s)
            end) as [negative digits].
  destruct digits as [|c digits]; [done|].
  destruct (strconv.parse_digits (String c digits) 0) as [v|]; [|done].
  destruct (Z.leb_spec (- 2 ^ 63) (if negative then - v else v)); [|done].
  destruct (Z.ltb_spec (if negative then - v else v) (2 ^ 63)); [|done].
  simpl. by intros [= <-].
Qed.

Lemma parse_digits_app s t acc :
  strconv.parse_digits (s +:+ t) acc =
    match strconv.parse_digits s acc with
    | Some v => strconv.parse_digits t v
    | None => None
    end.
Proof.
  revert acc. induction s as [|c s IH]; intros acc; [done|].
  rewrite app_cons. simpl. destruct (strconv.digit_value c); [apply IH|done].
Qed.

Lemma digit_value_digit d : 0 <= d < 10 -> strconv.digit_value (digit d) = Some d.
Proof.
  intros Hd.
  assert (d = 0 \/ d = 1 \/ d = 2 \/ d = 3 \/ d = 4 \/
          d = 5 \/ d = 6 \/ d = 7 \/ d = 8 \/ d = 9)
    as [->|[->|[->|[->|[->|[->|[->|[->|[->| ->]]]]]]]]] by lia;
    reflexivity.
Qed.

Lemma itoa_go_S fuel n acc :
  itoa_go (S fuel) n acc =
    if n / 10 =? 0 then String (digit (n mod 10)) acc
    else itoa_go fuel (n / 10) (String (digit (n mod 10)) acc).
Proof. reflexivity. Qed.

(** The digits [itoa_go] writes read back as the number, and the first of
    them is a digit. *)
Lemma itoa_go_parse fuel n acc :
  0 <= n < 10 ^ Z.of_nat (S fuel) ->
  exists d s, 0 <= d < 10
    /\ itoa_go (S fuel) n acc = String (digit d) s +:+ acc
    /\ strconv.parse_digits (String (digit d) s) 0 = Some n.
Proof.
  revert n acc. induction fuel as [|fuel IH]; intros n acc Hn.
  - change (10 ^ Z.of_nat 1) with 10 in Hn.
    exists n, EmptyString. split; [done|]. rewrite itoa_go_S.
    rewrite Z.div_small, Z.mod_small by done. cbn [Z.eqb].
    split; [done|]. cbn [strconv.parse_digits].
    by rewrite digit_value_digit by done.
  - rewrite Nat2Z.inj_succ, Z.pow_succ_r in Hn by lia.
    pose proof (Z.mod_pos_bound n 10 ltac:(done)) as Hmod.
    pose proof (Z.div_mod n 10 ltac:(done)) as Hdm.
    rewrite itoa_go_S. destruct (Z.eqb_spec (n / 10) 0) as [Hz|Hnz].
    + exists (n mod 10), EmptyString. split; [done|]. split; [done|].
      cbn [strconv.parse_digits]. rewrite digit_value_digit by done.
      f_equal. lia.
    + destruct (IH (n / 10) (String (digit (n mod 10)) acc)) as (d & s & Hd & Heq & Hp).
      { split; [apply Z.div_pos; lia | apply Z.div_lt_upper_bound; lia]. }
      exists d, (s +:+ String (digit (n mod 10)) EmptyString).
      split; [done|]. split.
      * rewrite Heq. rewrite <- !app_cons. by rewrite app_assoc_s.
      * rewrite <- app_cons, parse_digits_app, Hp.
        cbn [strconv.parse_digits]. rewrite digit_value_digit by done.
        f_equal. lia.
Qed.

Lemma Atoi_digits d s :
  0 <= d < 10 ->
  strconv.Atoi (String (digit d) s) =
    match strconv.parse_digits (String (digit d) s) 0 with
    | None => None
    | Some v => if (- 2 ^ 63 <=? v) && (v <? 2 ^ 63) then Some v else None
    end.
Proof.
  intros Hd.
  assert (d = 0 \/ d = 1 \/ d = 2 \/ d = 3 \/ d = 4 \/
          d = 5 \/ d = 6 \/ d = 7 \/ d = 8 \/ d = 9)
    as [->|[->|[->|[->|[->|[->|[->|[->|[->| ->]]]]]]]]] by lia;
    reflexivity.
Qed.

(** Atoi reads back what Itoa writes, for every [int]. *)
Lemma Atoi_Itoa n : is_int n -> strconv.Atoi (strconv.Itoa n) = Some n.
Proof.
  unfold is_int, strconv.Itoa. intros Hn.
  assert (H63 : 2 ^ 63 < 10 ^ Z.of_nat 20) by reflexivity.
  destruct (Z.ltb_spec n 0) as [Hneg|Hpos].
  - destruct (itoa_go_parse 19 (- n) EmptyString) as (d & s & Hd & Heq & Hp); [lia|].
    unfold itoa. rewrite Heq, app_empty_r.
    unfold strconv.Atoi. rewrite Hp.
    replace (- - n) with n by lia.
    destruct (Z.leb_spec (- 2 ^ 63) n); [|lia].
    destruct (Z.ltb_spec n (2 ^ 63)); [done|lia].
  - destruct (itoa_go_parse 19 n EmptyString) as (d & s & Hd & Heq & Hp); [lia|].
    unfold itoa. rewrite Heq, app_empty_r, Atoi_digits, Hp by done.
    destruct (Z.leb_spec (- 2 ^ 63) n); [|lia].
    destruct (Z.ltb_spec n (2 ^ 63)); [done|lia].
Qed.

End AtoiFacts.

Example Atoi_examples :
  strconv.Atoi "10" = Some 10 /\ strconv.Atoi "-3" = Some (-3)
  /\ strconv.Atoi "+7" = Some 7 /\ strconv.Atoi "007" = Some 7
  /\ strconv.Atoi EmptyString = None /\ strconv.Atoi "-" = None
  /\ strconv.Atoi "1x" = None /\ strconv.Atoi " 1" = None
  /\ strconv.Atoi "9223372036854775807" = Some (2 ^ 63 - 1)
  /\ strconv.Atoi "9223372036854775808" = None
  /\ strconv.Atoi "-9223372036854775808" = Some (- 2 ^ 63).
Proof. repeat split; vm_compute; reflexivity. Qed.

Lemma decodeList_parsed
    (ParseQuery : string -> option (gmap string (list string)))
    (r : transport.Request) (q : gmap string (list string)) :
  ParseQuery (transport.RawQuery r) = Some q ->
  (forall e, transport.decodeList ParseQuery r = transport.Failure e ->
     e = transport.errInvalidQueryParams)
  /\ ((1 < length (transport.values q "offset")
       \/ 1 < length (transport.values q "limit"))%nat ->
      transport.decodeList ParseQuery r
      = transport.Failure transport.errInvalidQueryParams)
  /\ (forall req, transport.decodeList ParseQuery r = transport.Reply req ->
        transport.list_key req = transport.Header_Get r "Authorization"
        /\ is_int (transport.list_offset req) /\ is_int (transport.list_limit req)
        /\ (transport.values q "offset" = [] /\ transport.list_offset req = 0
            \/ exists s, transport.values q "offset" = [s]
                 /\ strconv.Atoi s = Some (transport.list_offset req))
        /\ (transport.values q "limit" = [] /\ transport.list_limit req = 10
            \/ exists s, transport.values q "limit" = [s]
                 /\ strconv.Atoi s = Some (transport.list_limit req))).
Proof.
  intros Hq. unfold transport.decodeList. rewrite Hq.
  assert (H0 : is_int 0) by (unfold is_int; split; done).
  assert (H10 : is_int 10) by (unfold is_int; split; done).
  destruct (transport.values q "offset") as [|so [|so' off]];
    destruct (transport.values q "limit") as [|sl [|sl' lmt]]; simpl;
    try (split; [congruence|]; split; [done|]; discriminate).
  - split; [discriminate|]. split; [intros [?|?]; simpl in *; lia|].
    intros req [= <-]. simpl. 
      (split; [done|]; split; [done|]; split; [done|]; split;
       first [left; split; reflexivity
             | right; eexists; split; [reflexivity|eassumption]]).
  - destruct (strconv.Atoi sl) as [l|] eqn:Hl.
    + split; [discriminate|]. split; [intros [?|?]; simpl in *; lia|].
      intros req [= <-]. simpl.
      pose proof (Atoi_is_int _ _ Hl). 
      (split; [done|]; split; [done|]; split; [done|]; split;
       first [left; split; reflexivity
             | right; eexists; split; [reflexivity|eassumption]]).
    + split; [congruence|]. split; [intros [?|?]; simpl in *; lia|]. discriminate.
  - destruct (strconv.Atoi so) as [o|] eqn:Ho.
    + split; [discriminate|]. split; [intros [?|?]; simpl in *; lia|].
      intros req [= <-]. simpl.
      pose proof (Atoi_is_int _ _ Ho). 
      (split; [done|]; split; [done|]; split; [done|]; split;
       first [left; split; reflexivity
             | right; eexists; split; [reflexivity|eassumption]]).
    + split; [congruence|]. split; [intros [?|?]; simpl in *; lia|]. discriminate.
  - destruct (strconv.Atoi so) as [o|] eqn:Ho.
    + destruct (strconv.Atoi sl) as [l|] eqn:Hl.
      * split; [discriminate|]. split; [intros [?|?]; simpl in *; lia|].
        intros req [= <-]. simpl.
        pose proof (Atoi_is_int _ _ Ho). pose proof (Atoi_is_int _ _ Hl). 
      (split; [done|]; split; [done|]; split; [done|]; split;
       first [left; split; reflexivity
             | right; eexists; split; [reflexivity|eassumption]]).
      * split; [congruence|]. split; [intros [?|?]; simpl in *; lia|]. discriminate.
    + split; [congruence|]. split; [intros [?|?]; simpl in *; lia|]. discriminate.
Qed.

(** X19. decodeList fails with no other error than the one for invalid
    query parameters; it fails so whenever [offset] or [limit] occurs more
    than once, whatever the values; and a request it returns carries the
    Authorization header as key and, for each of the two parameters, the
    default (offset 0, limit 10) when the parameter is absent and else the
    integer its only value spells, an [int] in every case and of either
    sign. *)
Theorem decodeList_outcome
    (ParseQuery : string -> option (gmap string (list string)))
    (r : transport.Request) :
  (forall e, transport.decodeList ParseQuery r = transport.Failure e ->
     e = transport.errInvalidQueryParams)
  /\ (forall q, ParseQuery (transport.RawQuery r) = Some q ->
        (1 < length (transport.values q "offset")
         \/ 1 < length (transport.values q "limit"))%nat ->
        transport.decodeList ParseQuery r
        = transport.Failure transport.errInvalidQueryParams)
  /\ (forall req, transport.decodeList ParseQuery r = transport.Reply req ->
        exists q, ParseQuery (transport.RawQuery r) = Some q
          /\ transport.list_key req = transport.Header_Get r "Authorization"
          /\ is_int (transport.list_offset req) /\ is_int (transport.list_limit req)
          /\ (transport.values q "offset" = [] /\ transport.list_offset req = 0
              \/ exists s, transport.values q "offset" = [s]
                   /\ strconv.Atoi s = Some (transport.list_offset req))
          /\ (transport.values q "limit" = [] /\ transport.list_limit req = 10
              \/ exists s, transport.values q "limit" = [s]
                   /\ strconv.Atoi s = Some (transport.list_limit req))).
Proof.
  destruct (ParseQuery (transport.RawQuery r)) as [q|] eqn:Hq.
  - destruct (decodeList_parsed ParseQuery r q Hq) as (Hf & Hdup & Hreq).
    split; [done|]. split; [by intros q0 [= <-]|].
    intros req Hr. exists q. split; [done|]. by apply Hreq.
  - unfold transport.decodeList. rewrite Hq.
    split; [congruence|]. split; [done|]. discriminate.
Qed.

(** X20. decodeList accepts every integer an [int] holds, negative ones
    and zero too, and hands it on as it is: for a query whose only
    [offset] is the decimal text of [o] and whose only [limit] is the
    decimal text of [l], the request carries offset [o] and limit [l]. *)
Theorem decodeList_accepts_every_int
    (ParseQuery : string -> option (gmap string (list string)))
    (r : transport.Request) (q : gmap string (list string)) (o l : Z) :
  ParseQuery (transport.RawQuery r) = Some q ->
  transport.values q "offset" = [strconv.Itoa o] ->
  transport.values q "limit" = [strconv.Itoa l] ->
  is_int o -> is_int l ->
  transport.decodeList ParseQuery r =
    transport.Reply
      {| transport.list_key := transport.Header_Get r "Authorization";
         transport.list_offset := o;
         transport.list_limit := l |}.
Proof.
  intros Hq Ho Hl Hio Hil. unfold transport.decodeList.
  rewrite Hq, Ho, Hl. simpl.
  by rewrite !Atoi_Itoa by done.
Qed.

Lemma decodeList_accepts_every_int_witness :
  scenario3.parsed_query (transport.RawQuery scenario3.list_request)
  = Some {[ "offset" := ["1"]; "limit" := ["2"] ]}
  /\ is_int 1 /\ is_int 2
  /\ transport.decodeList scenario3.parsed_query scenario3.list_request
     = transport.Reply
         {| transport.list_key := "tok-u";
            transport.list_offset := 1; transport.list_limit := 2 |}.
Proof.
  assert (Hq : scenario3.parsed_query (transport.RawQuery scenario3.list_request)
               = Some {[ "offset" := ["1"]; "limit" := ["2"] ]}) by reflexivity.
  assert (H1 : is_int 1) by (unfold is_int; split; done).
  assert (H2 : is_int 2) by (unfold is_int; split; done).
  split; [exact Hq|]. split; [exact H1|]. split; [exact H2|].
  refine (decodeList_accepts_every_int scenario3.parsed_query scenario3.list_request
            _ 1 2 Hq _ _ H1 H2); vm_compute; reflexivity.
Defined.

(** X21. The four decoders of a body (creation and update of a thing and
    of a channel) refuse every request whose Content-Type header is not
    exactly [application/json] with the error for an unsupported content
    type, a missing header and one with a character set included,
    whatever the body holds and whatever the JSON decoder would make of
    it. *)
Theorem body_decoders_want_json
    (decodeThing : string -> transport.reply Thing.t)
    (decodeChannel : string -> transport.reply Channel.t)
    (r : transport.Request) :
  transport.Header_Get r "Content-Type" <> transport.contentType ->
  transport.decodeThingCreation decodeThing r
    = transport.Failure transport.errUnsupportedContentType
  /\ transport.decodeThingUpdate decodeThing r
     = transport.Failure transport.errUnsupportedContentType
  /\ transport.decodeChannelCreation decodeChannel r
     = transport.Failure transport.errUnsupportedContentType
  /\ transport.decodeChannelUpdate decodeChannel r
     = transport.Failure transport.errUnsupportedContentType.
Proof.
  intros Hct%String.eqb_neq.
  unfold transport.decodeThingCreation, transport.decodeThingUpdate,
    transport.decodeChannelCreation, transport.decodeChannelUpdate.
  by rewrite Hct.
Qed.

Lemma body_decoders_want_json_witness :
  transport.Header_Get scenario3.charset_request "Content-Type"
  = "application/json; charset=utf-8"
  /\ transport.decodeChannelCreation
       (fun _ => transport.Reply scenario.c1_request) scenario3.charset_request
     = transport.Failure transport.errUnsupportedContentType.
Proof.
  assert (Hh : transport.Header_Get scenario3.charset_request "Content-Type"
               = "application/json; charset=utf-8") by reflexivity.
  split; [exact Hh|].
  refine (proj1 (proj2 (proj2 (body_decoders_want_json
                   (fun _ => transport.Reply Thing.zero)
                   (fun _ => transport.Reply scenario.c1_request)
                   scenario3.charset_request _)))).
  rewrite Hh. discriminate.
Defined.

(** ** Listings on any map *)

Lemma All_collect_length visit pre first last :
  (length (mocks.All_collect visit pre first last) <= length visit)%nat.
Proof.
  induction visit as [|[k c] visit IH]; simpl; [done|].
  destruct (_ && _ && _); simpl; lia.
Qed.

(** X22. On every map and in every order of visit, All lists only
    channels the map holds, each under a key that starts with the owner
    and the separator, and never more channels than the map has entries;
    nothing is made up and no entry is listed more often than it is
    stored. *)
Theorem All_lists_stored_channels (startID : string) (m : gmap string Channel.t)
    (visit : list (string * Channel.t)) (owner : string) (offset limit : Z) :
  mocks.ranges m visit ->
  (forall c, c ∈ mocks.All startID visit owner offset limit ->
     exists dbKey, m !! dbKey = Some c
       /\ HasPrefix dbKey (owner +:+ String sep EmptyString) = true)
  /\ (length (mocks.All startID visit owner offset limit) <= size m)%nat
  /\ mocks.All startID visit owner offset limit ⊆+ (map_to_list m).*2.
Proof.
  intros Hv. split; [|split].
  - intros c (_ & _ & dbKey & Hin & Hpre & _)%elem_of_All.
    exists dbKey. split; [by apply (ranges_elem_of _ _ _ _ Hv)|done].
  - unfold mocks.All. destruct ((offset <? 0) || (limit <=? 0)); [simpl; lia|].
    rewrite SliceStable_perm. etrans; [apply All_collect_length|].
    unfold mocks.ranges in Hv. by rewrite Hv, length_map_to_list.
  - unfold mocks.All. destruct ((offset <? 0) || (limit <=? 0)).
    { apply submseteq_nil_l. }
    rewrite SliceStable_perm. unfold mocks.ranges in Hv. rewrite <- Hv.
    generalize (owner +:+ String sep EmptyString)
      (startID +:+ Sprintf_012d (int_add offset 1))
      (startID +:+ Sprintf_012d (int_add (int_add offset limit) 1)).
    intros pre first last. clear Hv.
    induction visit as [|[k c] visit IH]; simpl; [done|].
    destruct (_ && _ && _); [by apply submseteq_skip | by apply submseteq_cons].
Qed.

Lemma All_lists_stored_channels_witness :
  mocks.ranges (mocks.channels (channels scenario3.created)) scenario3.visit
  /\ (length (mocks.All fixtures.startID scenario3.visit "u" 0 10)
      <= size (mocks.channels (channels scenario3.created)))%nat.
Proof.
  assert (Hv : mocks.ranges (mocks.channels (channels scenario3.created))
                 scenario3.visit) by apply ranges_map_to_list.
  split; [exact Hv|].
  exact (proj1 (proj2 (All_lists_stored_channels fixtures.startID _ _ "u" 0 10 Hv))).
Defined.

(** X23. An owner is shown all the channels of a page that are stored
    under the owner's own keys, whoever else has channels in the map: in
    a map keyed by owner and ID, a stored channel of the owner whose ID is
    [startID] and the twelve digits of [r + 1] is listed by every All for
    the owner whose window [[offset, offset + limit)] holds [r] and ends
    below [10 ^ 12]. *)
Theorem All_lists_own_channels (startID : string) (m : gmap string Channel.t)
    (visit : list (string * Channel.t)) (owner : string) (offset limit : Z)
    (c : Channel.t) (r : Z) :
  mocks.ranges m visit -> well_keyed m ->
  stored m c -> Channel.Owner c = owner -> has_rank startID c r ->
  0 <= offset -> offset <= r < offset + limit -> offset + limit + 1 < 10 ^ 12 ->
  c ∈ mocks.All startID visit owner offset limit.
Proof.
  intros Hv Hwk [dbKey Hin] Hown Hrank Ho Hr Hb.
  destruct (page_bounds offset limit Ho ltac:(lia) Hb) as [Efirst Elast].
  apply elem_of_All. rewrite Efirst, Elast.
  split; [done|]. split; [lia|]. exists dbKey.
  pose proof (Hwk _ _ Hin) as Hkey. simpl in Hkey.
  split; [by apply (ranges_elem_of _ _ _ _ Hv)|]. split.
  { rewrite Hkey, Hown. apply key_has_prefix. }
  unfold has_rank in Hrank. unfold GoString.ge.
  fold (GoString.lt (Channel.ID c) (startID +:+ Sprintf_012d (offset + 1))).
  rewrite Hrank, !ranked_lt by lia. split.
  - apply negb_true_iff, Z.ltb_ge. lia.
  - apply Z.ltb_lt. lia.
Qed.

Lemma All_lists_own_channels_witness :
  let s := snd (CreateChannel scenario.created "tok-u-v" scenario.c1_request) in
  let c := Channel.mk scenario.c1_id "u" "room" [] [] in
  mocks.ranges (mocks.channels (channels s)) (scenario.visit s)
  /\ well_keyed (mocks.channels (channels s))
  /\ stored (mocks.channels (channels s)) c
  /\ has_rank fixtures.startID c 2
  /\ length (mocks.All fixtures.startID (scenario.visit s) "u" 0 10) = 2%nat
  /\ c ∈ mocks.All fixtures.startID (scenario.visit s) "u" 0 10.
Proof.
  cbv zeta.
  set (s := snd (CreateChannel scenario.created "tok-u-v" scenario.c1_request)).
  set (c := Channel.mk scenario.c1_id "u" "room" [] []).
  assert (Hv : mocks.ranges (mocks.channels (channels s)) (scenario.visit s))
    by apply ranges_map_to_list.
  assert (Hr : reachable fixtures.users (∅ : fixtures.thingRepositoryMock)
                 (0 : fixtures.identityProviderMock) s).
  { apply (reachable_exec _ _ _ _ (CallCreateChannel "tok-u-v" scenario.c1_request)).
    apply reachable_created. }
  pose proof (reachable_well_keyed _ _ _ _ Hr) as Hwk.
  assert (Hs : stored (mocks.channels (channels s)) c).
  { exists (key "u" scenario.c1_id). vm_compute. reflexivity. }
  assert (Hk : has_rank fixtures.startID c 2) by (vm_compute; reflexivity).
  split; [exact Hv|]. split; [exact Hwk|]. split; [exact Hs|]. split; [exact Hk|].
  split; [vm_compute; reflexivity|].
  exact (All_lists_own_channels fixtures.startID _ _ "u" 0 10 c 2 Hv Hwk Hs eq_refl Hk
           ltac:(done) ltac:(done) ltac:(done)).
Defined.
